(** * mpd-web: the artist/album image cache of [server.py]

    A shallow embedding of the image acquisition and rotation cache of
    [Handler.handle_artistart] and [Handler.handle_blacklist], together with
    the blacklist store ([load_blacklist], [save_blacklist]).

    Process-wide state (the module global [IMAGE_BLACKLIST] and the three
    class-level dictionaries of [Handler]) is threaded explicitly.  Everything
    the handlers read from the outside world (provider answers, downloads, the
    outcome of writing the blacklist file) is an explicit argument of the
    handler, so that each handler is a total, executable function.

    A Python [str] is represented by the bytes of its UTF-8 encoding, a lone
    surrogate by the three bytes of the generalised encoding; [bytes] values
    are lists of bytes. *)

From Stdlib Require Import Ascii String.
From Stdlib.Strings Require Import Byte.
From stdpp Require Import gmap strings list fin_maps.

Local Open Scope string_scope.

(** ** Python string primitives used by the handlers *)

Module PyStr.

(** [str.lower] on the ASCII range; other characters are left as they are. *)
Definition lower_char (c : ascii) : ascii :=
  let n := nat_of_ascii c in
  if (65 <=? n)%nat && (n <=? 90)%nat then ascii_of_nat (n + 32) else c.

Fixpoint lower (s : string) : string :=
  match s with
  | EmptyString => EmptyString
  | String c t => String (lower_char c) (lower t)
  end.

(** [str.isspace] on the ASCII range: TAB..CR, FS..US and the blank. *)
Definition is_space (c : ascii) : bool :=
  let n := nat_of_ascii c in
  ((9 <=? n)%nat && (n <=? 13)%nat) || ((28 <=? n)%nat && (n <=? 32)%nat).

Fixpoint lstrip (s : string) : string :=
  match s with
  | EmptyString => EmptyString
  | String c t => if is_space c then lstrip t else s
  end.

Fixpoint rstrip (s : string) : string :=
  match s with
  | EmptyString => EmptyString
  | String c t =>
      match rstrip t with
      | EmptyString => if is_space c then EmptyString else String c EmptyString
      | t' => String c t'
      end
  end.

(** [s.strip()] *)
Definition strip (s : string) : string := rstrip (lstrip s).

Fixpoint is_prefix (p s : string) : bool :=
  match p, s with
  | EmptyString, _ => true
  | String a p', String b s' => if ascii_dec a b then is_prefix p' s' else false
  | String _ _, EmptyString => false
  end.

(** [needle in hay] for two [str] values. *)
Fixpoint contains (needle hay : string) : bool :=
  is_prefix needle hay ||
  match hay with
  | EmptyString => false
  | String _ t => contains needle t
  end.

(** Truthiness of a [str]: only the empty string is falsy. *)
Definition nonempty (s : string) : bool :=
  match s with EmptyString => false | String _ _ => true end.

End PyStr.

(** ** Encoding a [str]

    [http.server] encodes the status line and every header with
    [encode('latin-1', 'strict')], and the handlers encode a text body with
    [encode('utf-8')]; both raise [UnicodeEncodeError] on a character they
    cannot encode.  (The request line is taken to name an HTTP version, as
    every browser's does; only then does [http.server] write a status line
    and headers at all.) *)

(** [s.encode('latin-1')] succeeds: every character is at most U+00FF, that
    is, no byte of the UTF-8 form is 0xC4 or more. *)
Fixpoint latin1 (s : string) : bool :=
  match s with
  | EmptyString => true
  | String c t => (nat_of_ascii c <? 196)%nat && latin1 t
  end.

(** [s.encode('utf-8')] succeeds: [s] holds no surrogate, whose generalised
    UTF-8 form is the byte 0xED followed by a byte from 0xA0 on. *)
Fixpoint utf8 (s : string) : bool :=
  match s with
  | EmptyString => true
  | String c t =>
      match t with
      | EmptyString => true
      | String d _ =>
          negb ((nat_of_ascii c =? 237)%nat && (160 <=? nat_of_ascii d)%nat)
          && utf8 t
      end
  end.

(** ** JSON values read from provider answers

    A field of a JSON object is read with [obj.get(key)]: [None] when the key
    is absent (or [null]), otherwise the string stored there. *)

Definition field := option string.

(** Python truthiness of [obj.get(key)]. *)
Definition truthy (f : field) : bool :=
  match f with
  | Some s => PyStr.nonempty s
  | None => false
  end.

(** [a or b] on two field reads. *)
Definition py_or (a b : field) : field := if truthy a then a else b.


(** ** Provider answers

    The objects the handler reads from the metadata providers, with the keys
    it reads.  An answer [None] stands for a [try] block that raised before it
    touched [image_urls] (network error, HTTP error, timeout, invalid JSON,
    unexpected shape); [Some l] is the list found under ['data'], ['album'] or
    ['artists'] (empty when the key is absent, [null] or an empty list). *)

Record DeezerAlbum := { cover_xl : field; cover_big : field }.

Record AudioDbAlbum := {
  strAlbumThumb : field; strAlbumThumbHQ : field;
  strAlbumCDart : field; strAlbumSpine : field }.

Record DeezerArtist := {
  picture_xl : field; picture_big : field; picture_medium : field }.

Record AudioDbArtist := {
  strArtistThumb : field; strArtistFanart : field; strArtistFanart2 : field;
  strArtistFanart3 : field; strArtistFanart4 : field; strArtistCutout : field;
  strArtistClearart : field; strArtistWideThumb : field;
  strArtistBanner : field }.

(** A track of the Deezer track search.  [TrackAlbum a] carries the object
    under ['album'] (both covers [None] when the key is absent);
    [TrackMalformed] is a track on which [track.get('album', {}).get(..)]
    raises (['album'] is [null], or the track is not an object). *)
Inductive DeezerTrack :=
  | TrackAlbum (a : DeezerAlbum)
  | TrackMalformed.

(** What the network answers during one request.  [urlopen_image i u] is the
    download of candidate number [i] (0-based) from URL [u]: the body and the
    [Content-Type] header if there is one, or [None] when the download raises
    (timeout, non-2xx status, bad URL). *)
Record World := {
  deezer_album_search : string → option (list DeezerAlbum);
  audiodb_album_search : string → string → option (list AudioDbAlbum);
  deezer_artist_search : string → option (list DeezerArtist);
  deezer_track_search : string → option (list DeezerTrack);
  audiodb_artist_search : string → option (list AudioDbArtist);
  urlopen_image : nat → string → option (list byte * option string) }.

(** ** Candidate collection (server.py, lines 235-316) *)

(** [if alb.get(key): image_urls.append(alb[key])] *)
Definition add_truthy (image_urls : list string) (f : field) : list string :=
  match f with
  | Some u => if PyStr.nonempty u then image_urls ++ [u] else image_urls
  | None => image_urls
  end.

(** [if art.get(key) and art[key] not in image_urls: image_urls.append(art[key])] *)
Definition add_unseen (image_urls : list string) (f : field) : list string :=
  match f with
  | Some u =>
      if PyStr.nonempty u && negb (bool_decide (u ∈ image_urls))
      then image_urls ++ [u] else image_urls
  | None => image_urls
  end.

(** The same test followed by [break]: only the first key that passes it
    contributes. *)
Fixpoint add_first_unseen (image_urls : list string) (fs : list field)
  : list string :=
  match fs with
  | [] => image_urls
  | f :: fs' =>
      match f with
      | Some u =>
          if PyStr.nonempty u && negb (bool_decide (u ∈ image_urls))
          then image_urls ++ [u] else add_first_unseen image_urls fs'
      | None => add_first_unseen image_urls fs'
      end
  end.

Definition soundtrack_hints : list string :=
  ["soundtrack"; "ost"; "game"; "movie"].

(** [album and album.lower() in ('soundtrack', 'ost', 'game', 'movie')] *)
Definition is_soundtrack_search (album : string) : bool :=
  PyStr.nonempty album && bool_decide (PyStr.lower album ∈ soundtrack_hints).

(** Deezer album search (lines 241-250). *)
Definition deezer_album_urls (w : World) (artist album : string)
    (image_urls : list string) : list string :=
  match deezer_album_search w (artist +:+ " " +:+ album) with
  | Some (hit :: _) => add_truthy image_urls (py_or (cover_xl hit) (cover_big hit))
  | _ => image_urls
  end.

(** TheAudioDB album search (lines 253-263). *)
Definition audiodb_album_urls (w : World) (artist album : string)
    (image_urls : list string) : list string :=
  match audiodb_album_search w artist album with
  | Some (alb :: _) =>
      foldl add_truthy image_urls
        [strAlbumThumb alb; strAlbumThumbHQ alb; strAlbumCDart alb; strAlbumSpine alb]
  | _ => image_urls
  end.

(** [search_terms] (lines 266-273). *)
Definition search_terms (artist album : string) : list string :=
  [artist] ++
  (if is_soundtrack_search album
   then [artist +:+ " soundtrack"; artist +:+ " ost";
         artist +:+ " game"; artist +:+ " movie"]
   else []).

(** One round of the Deezer artist search (lines 277-288). *)
Definition deezer_artist_urls (w : World) (image_urls : list string)
    (term : string) : list string :=
  match deezer_artist_search w term with
  | Some (art :: _) =>
      add_first_unseen image_urls [picture_xl art; picture_big art; picture_medium art]
  | _ => image_urls
  end.

(** The loop over the tracks (lines 296-299).  A malformed track raises: the
    covers appended so far stay, the rest of the tracks is not looked at. *)
Fixpoint add_track_covers (image_urls : list string) (tracks : list DeezerTrack)
  : list string :=
  match tracks with
  | [] => image_urls
  | TrackMalformed :: _ => image_urls
  | TrackAlbum a :: tracks' =>
      add_track_covers (add_unseen image_urls (py_or (cover_xl a) (cover_big a))) tracks'
  end.

(** Deezer track search (lines 291-301). *)
Definition deezer_track_urls (w : World) (artist album : string)
    (image_urls : list string) : list string :=
  if is_soundtrack_search album || bool_decide (image_urls = [])
  then match deezer_track_search w artist with
       | Some tracks => add_track_covers image_urls tracks
       | None => image_urls
       end
  else image_urls.

(** TheAudioDB artist search (lines 304-316). *)
Definition audiodb_artist_urls (w : World) (artist : string)
    (image_urls : list string) : list string :=
  match audiodb_artist_search w artist with
  | Some (art :: _) =>
      foldl add_unseen image_urls
        [strArtistThumb art; strArtistFanart art; strArtistFanart2 art;
         strArtistFanart3 art; strArtistFanart4 art; strArtistCutout art;
         strArtistClearart art; strArtistWideThumb art; strArtistBanner art]
  | _ => image_urls
  end.

(** The album-art phase (lines 239-263): runs only when an album is given and
    it is not a soundtrack hint. *)
Definition album_phase (w : World) (artist album : string) : list string :=
  if PyStr.nonempty album && negb (is_soundtrack_search album)
  then audiodb_album_urls w artist album (deezer_album_urls w artist album [])
  else [].

(** [image_urls] as it stands before the blacklist filter of line 319. *)
Definition collect_image_urls (w : World) (artist album : string) : list string :=
  let image_urls := album_phase w artist album in
  let image_urls :=
    foldl (deezer_artist_urls w) image_urls (take 2 (search_terms artist album)) in
  let image_urls := deezer_track_urls w artist album image_urls in
  audiodb_artist_urls w artist image_urls.

(** ** Blacklist store (lines 13-33) *)

(** The content of [image_blacklist.json]: [Some l] when the file holds the
    JSON list [l], [None] when it is absent or cannot be read or parsed. *)
Definition BlacklistFile := option (list string).

(** [load_blacklist]: the set of the listed URLs, the empty set on failure. *)
Definition load_blacklist (file : BlacklistFile) : gset string :=
  match file with
  | Some l => list_to_set l
  | None => ∅
  end.

(** How the write of [save_blacklist] ends: the list is written, [open]
    raises (the file stays as it was), or the write raises after [open]
    truncated the file (an unreadable file is left behind). *)
Inductive WriteOutcome := Written | OpenFailed | DumpFailed.

(** [save_blacklist]: best effort, the exception is swallowed. *)
Definition save_blacklist (o : WriteOutcome) (blacklist : gset string)
    (file : BlacklistFile) : BlacklistFile :=
  match o with
  | Written => Some (elements blacklist)
  | OpenFailed => file
  | DumpFailed => None
  end.

(** ** Cache state (lines 217-220) *)

(** One cached image: the tuple [(img_data, content_type, img_url)]. *)
Record ImageRecord := {
  img_data : list byte;
  content_type : string;
  img_url : string }.

Record State := {
  IMAGE_BLACKLIST : gset string;
  BLACKLIST_FILE : BlacklistFile;
  image_cache : gmap string (list ImageRecord);
  image_index : gmap string nat;
  current_image_url : gmap string string }.

(** The state right after the module is loaded. *)
Definition initial_state (file : BlacklistFile) : State :=
  {| IMAGE_BLACKLIST := load_blacklist file;
     BLACKLIST_FILE := file;
     image_cache := ∅;
     image_index := ∅;
     current_image_url := ∅ |}.

(** ** Responses *)

Inductive PyException := KeyError | IndexError | UnicodeEncodeError | OSError.

Inductive Response :=
  (** [send_error(code, message)] *)
  | SendError (code : nat) (message : string)
  (** [send_response(204)] without a body *)
  | NoContent
  (** status 200 with the image; [position]/[total] is [X-Image-Index] *)
  | Image (ctype : string) (position total : nat) (cache_key : string)
          (body : list byte)
  (** status 200, [{'error': 'Cannot blacklist placeholder', 'remaining': n}] *)
  | CannotBlacklist (remaining : nat)
  (** status 200, [{'blacklisted': url, 'remaining': n}] *)
  | Blacklisted (url : string) (remaining : nat)
  (** the handler raised and nothing was sent *)
  | Raised (e : PyException).

Definition status (r : Response) : option nat :=
  match r with
  | SendError code _ => Some code
  | NoContent => Some 204
  | Image _ _ _ _ _ => Some 200
  | CannotBlacklist _ => Some 200
  | Blacklisted _ _ => Some 200
  | Raised _ => None
  end.

(** ** Image fetcher (lines 328-338) *)

(** The body of the download loop for candidate number [i]. *)
Definition fetch (w : World) (i : nat) (url : string) : option ImageRecord :=
  match urlopen_image w i url with
  | Some (data, header) =>
      if (500 <? length data)%nat
      then Some {| img_data := data;
                   content_type := default "image/jpeg" header;
                   img_url := url |}
      else None
  | None => None
  end.

(** The loop over [image_urls], from candidate number [i] on. *)
Fixpoint download_from (w : World) (i : nat) (image_urls : list string)
  : list ImageRecord :=
  match image_urls with
  | [] => []
  | u :: rest =>
      match fetch w i u with
      | Some r => r :: download_from w (S i) rest
      | None => download_from w (S i) rest
      end
  end.

Definition download_all (w : World) (image_urls : list string) : list ImageRecord :=
  download_from w 0 image_urls.

(** ** [Handler.handle_artistart] *)

(** [cache_key] of lines 227-231. *)
Definition artist_of (a0 : string) : string := PyStr.strip a0.

Definition album_of (rest : list string) : string :=
  match rest with
  | a1 :: _ => PyStr.strip a1
  | [] => ""
  end.

Definition cache_key_of (artist album : string) : string :=
  PyStr.lower artist +:+ "|" +:+ PyStr.lower album.

(** Line 319: the candidates that are not blacklisted. *)
Definition filter_blacklisted (blacklist : gset string) (image_urls : list string)
  : list string :=
  filter (λ u, u ∉ blacklist) image_urls.

(** Lines 358-366: the answer with the record [r].  The headers
    [Content-type] and [X-Cache-Key] carry the content type and the key as
    they are; [send_header] raises before anything is sent when one of them
    cannot be encoded ([X-Image-Index] and [X-Cache] are ASCII). *)
Definition image_answer (r : ImageRecord) (position total : nat)
    (cache_key : string) : Response :=
  if latin1 (content_type r) && latin1 cache_key
  then Image (content_type r) position total cache_key (img_data r)
  else Raised UnicodeEncodeError.

(** Lines 347-366: serve the image under the cursor and advance the cursor.
    The last served URL and the cursor are stored (lines 353-356) before the
    answer is built. *)
Definition serve (cache_key : string) (st : State) : State * Response :=
  match image_cache st !! cache_key with
  | None => (st, Raised KeyError)
  | Some images =>
      match image_index st !! cache_key with
      | None => (st, Raised KeyError)
      | Some idx =>
          match images !! idx with
          | None => (st, Raised IndexError)
          | Some r =>
              ({| IMAGE_BLACKLIST := IMAGE_BLACKLIST st;
                  BLACKLIST_FILE := BLACKLIST_FILE st;
                  image_cache := image_cache st;
                  image_index :=
                    <[cache_key := (idx + 1) mod length images]> (image_index st);
                  current_image_url :=
                    <[cache_key := img_url r]> (current_image_url st) |},
               image_answer r (idx + 1) (length images) cache_key)
          end
      end
  end.

Definition handle_artistart (w : World) (args : list string) (st : State)
  : State * Response :=
  match args with
  | [] => (st, SendError 400 "No artist name provided")
  | a0 :: rest =>
      let artist := artist_of a0 in
      let album := album_of rest in
      let cache_key := cache_key_of artist album in
      match image_cache st !! cache_key with
      | Some _ => serve cache_key st
      | None =>
          let image_urls :=
            filter_blacklisted (IMAGE_BLACKLIST st) (collect_image_urls w artist album) in
          match image_urls with
          | [] => (st, NoContent)
          | _ :: _ =>
              match download_all w image_urls with
              | [] => (st, SendError 404 "Could not fetch images")
              | cached_images =>
                  serve cache_key
                    {| IMAGE_BLACKLIST := IMAGE_BLACKLIST st;
                       BLACKLIST_FILE := BLACKLIST_FILE st;
                       image_cache := <[cache_key := cached_images]> (image_cache st);
                       image_index := <[cache_key := 0]> (image_index st);
                       current_image_url := current_image_url st |}
              end
          end
      end
  end.

(** ** [Handler.handle_blacklist] *)

(** ['ui-avatars.com' in img_url] *)
Definition is_placeholder (url : string) : bool :=
  PyStr.contains "ui-avatars.com" url.

(** [len(Handler.image_cache.get(cache_key, []))] *)
Definition remaining_of (cache_key : string) (st : State) : nat :=
  length (default [] (image_cache st !! cache_key)).

Definition handle_blacklist (o : WriteOutcome) (args : list string) (st : State)
  : State * Response :=
  match args with
  | [] => (st, SendError 400 "No cache key provided")
  | a0 :: _ =>
      let cache_key := PyStr.lower a0 in
      match current_image_url st !! cache_key with
      | None => (st, SendError 404 "No current image for this key")
      | Some url =>
          if is_placeholder url
          then (st, CannotBlacklist (remaining_of cache_key st))
          else
            let blacklist := IMAGE_BLACKLIST st ∪ {[url]} in
            let file := save_blacklist o blacklist (BLACKLIST_FILE st) in
            match image_cache st !! cache_key with
            | None =>
                let st' := {| IMAGE_BLACKLIST := blacklist;
                              BLACKLIST_FILE := file;
                              image_cache := image_cache st;
                              image_index := image_index st;
                              current_image_url := current_image_url st |} in
                (st', Blacklisted url (remaining_of cache_key st'))
            | Some images =>
                let kept := filter (λ img, img_url img ≠ url) images in
                match kept with
                | [] =>
                    let st' := {| IMAGE_BLACKLIST := blacklist;
                                  BLACKLIST_FILE := file;
                                  image_cache := delete cache_key (image_cache st);
                                  image_index := delete cache_key (image_index st);
                                  current_image_url := current_image_url st |} in
                    (st', Blacklisted url (remaining_of cache_key st'))
                | _ :: _ =>
                    match image_index st !! cache_key with
                    | None =>
                        ({| IMAGE_BLACKLIST := blacklist;
                            BLACKLIST_FILE := file;
                            image_cache := <[cache_key := kept]> (image_cache st);
                            image_index := image_index st;
                            current_image_url := current_image_url st |},
                         Raised KeyError)
                    | Some idx =>
                        let st' :=
                          {| IMAGE_BLACKLIST := blacklist;
                             BLACKLIST_FILE := file;
                             image_cache := <[cache_key := kept]> (image_cache st);
                             image_index :=
                               <[cache_key := idx mod length kept]> (image_index st);
                             current_image_url := current_image_url st |} in
                        (st', Blacklisted url (remaining_of cache_key st'))
                    end
                end
            end
      end
  end.

(** ** The two cache operations as requests to the server *)

Inductive Request :=
  | ArtistArt (w : World) (args : list string)
  | BlacklistImg (o : WriteOutcome) (args : list string).

Definition step (rq : Request) (st : State) : State * Response :=
  match rq with
  | ArtistArt w args => handle_artistart w args st
  | BlacklistImg o args => handle_blacklist o args st
  end.

(** Serve the requests in order; the responses come back in the same order. *)
Fixpoint run (rqs : list Request) (st : State) : State * list Response :=
  match rqs with
  | [] => (st, [])
  | rq :: rqs' =>
      let '(st1, r) := step rq st in
      let '(st2, rs) := run rqs' st1 in
      (st2, r :: rs)
  end.

(** The states the server can be in: the state at start-up, for some content
    of the blacklist file, followed by any sequence of requests. *)
Inductive reachable : State → Prop :=
  | reachable_init file : reachable (initial_state file)
  | reachable_step rq st : reachable st → reachable (step rq st).1.

(** ** Notions used to state the properties *)

(** Every cached set is non-empty. *)
Definition sets_nonempty (st : State) : Prop :=
  ∀ k images, image_cache st !! k = Some images → images ≠ [].

(** Every cached set has a cursor, and the cursor points into the set. *)
Definition cursor_in_range (st : State) : Prop :=
  ∀ k images, image_cache st !! k = Some images →
    ∃ idx, image_index st !! k = Some idx ∧ idx < length images.


(** [position/total] of the [X-Image-Index] header, when an image is served. *)
Definition position_of (r : Response) : option (nat * nat) :=
  match r with
  | Image _ position total _ _ => Some (position, total)
  | _ => None
  end.

(** [n] calls for the same artist and album, one [World] per call. *)
Definition artistart_calls (ws : list World) (args : list string) : list Request :=
  (λ w, ArtistArt w args) <$> ws.

(** ** Concrete worlds for the scenarios *)

(** No provider answers and no download succeeds. *)
Definition offline : World :=
  {| deezer_album_search := λ _, None;
     audiodb_album_search := λ _ _, None;
     deezer_artist_search := λ _, None;
     deezer_track_search := λ _, None;
     audiodb_artist_search := λ _, None;
     urlopen_image := λ _ _, None |}.

(** A body of [n] bytes. *)
Definition body_of_size (n : nat) : list byte := replicate n x00.

Definition no_artist_images : AudioDbArtist :=
  {| strArtistThumb := None; strArtistFanart := None; strArtistFanart2 := None;
     strArtistFanart3 := None; strArtistFanart4 := None; strArtistCutout := None;
     strArtistClearart := None; strArtistWideThumb := None;
     strArtistBanner := None |}.

(** TheAudioDB knows [thumbs] for the artist (thumbnail first, then fan art),
    nothing else answers, and every download returns [n] bytes of PNG. *)
Definition artist_world (thumb fanart : field) (n : nat) : World :=
  {| deezer_album_search := λ _, None;
     audiodb_album_search := λ _ _, None;
     deezer_artist_search := λ _, None;
     deezer_track_search := λ _, None;
     audiodb_artist_search := λ _,
       Some [ {| strArtistThumb := thumb; strArtistFanart := fanart;
                 strArtistFanart2 := None; strArtistFanart3 := None;
                 strArtistFanart4 := None; strArtistCutout := None;
                 strArtistClearart := None; strArtistWideThumb := None;
                 strArtistBanner := None |} ];
     urlopen_image := λ _ _, Some (body_of_size n, Some "image/png") |}.

(** TheAudioDB lists the same cover as thumbnail and as HQ thumbnail of the
    album; nothing else answers; every download returns 600 bytes. *)
Definition same_cover_world (cover : string) : World :=
  {| deezer_album_search := λ _, None;
     audiodb_album_search := λ _ _,
       Some [ {| strAlbumThumb := Some cover; strAlbumThumbHQ := Some cover;
                 strAlbumCDart := None; strAlbumSpine := None |} ];
     deezer_artist_search := λ _, None;
     deezer_track_search := λ _, None;
     audiodb_artist_search := λ _, None;
     urlopen_image := λ _ _, Some (body_of_size 600, None) |}.

(** ** Further invariants of the cache *)

(** A cursor is kept exactly for the keys that have a set, and every key
    with a set has a last served URL. *)
Definition domains_agree (st : State) : Prop :=
  dom (image_index st) = dom (image_cache st) ∧
  dom (image_cache st) ⊆ dom (current_image_url st).

(** Every cached body passed the size test of the fetcher. *)
Definition bodies_over_500 (st : State) : Prop :=
  ∀ k images r, image_cache st !! k = Some images → r ∈ images →
    500 < length (img_data r).

(** Every write of the blacklist file in the request sequence succeeds. *)
Definition writes_succeed (rqs : list Request) : Prop :=
  ∀ o args, BlacklistImg o args ∈ rqs → o = Written.

(** The file holds exactly the blacklist that is in memory. *)
Definition file_in_sync (st : State) : Prop :=
  load_blacklist (BLACKLIST_FILE st) = IMAGE_BLACKLIST st.

(** [url] is blacklisted and no record of the set of [k] carries it. *)
Definition url_kept_out (k url : string) (st : State) : Prop :=
  url ∈ IMAGE_BLACKLIST st ∧
  ∀ images r, image_cache st !! k = Some images → r ∈ images → img_url r ≠ url.

(** ** Notions for the provider phases *)

(** [image_urls] as it stands when the track search is reached (line 291). *)
Definition urls_before_track_search (w : World) (artist album : string)
  : list string :=
  foldl (deezer_artist_urls w) (album_phase w artist album)
    (take 2 (search_terms artist album)).

(** The world [w] with another answer of the Deezer track search. *)
Definition with_track_search (w : World)
    (tracks : string → option (list DeezerTrack)) : World :=
  {| deezer_album_search := deezer_album_search w;
     audiodb_album_search := audiodb_album_search w;
     deezer_artist_search := deezer_artist_search w;
     deezer_track_search := tracks;
     audiodb_artist_search := audiodb_artist_search w;
     urlopen_image := urlopen_image w |}.

(** ** A world with three artist images *)


(** * The rest of the server *)

(** ** Lyrics lookup: [Handler.handle_lyrics] (lines 128-197) *)

(** [s.endswith(suffix)] *)
Fixpoint ends_with (suffix s : string) : bool :=
  String.eqb s suffix ||
  match s with
  | EmptyString => false
  | String _ t => ends_with suffix t
  end.

(** What the lookup reads from the file system, the tag readers and the two
    lyrics services.  Paths are given as the [str] of the [Path]; a reader or
    a service answers [None] when its [try] block raises.
    - [resolve_absolute p] is [Path(p).resolve()], and [resolve_relative p]
      is [(MUSIC_DIR / p).resolve()];
    - [exists_fails p] tells that [Path(p).exists()] raises ([OSError] for a
      name that is too long, or for a directory that may not be searched);
      when it does not, [path_exists p] is its answer;
    - [id3_uslt p] lists the texts of the USLT frames of [ID3(p)];
    - [flac_tags p] gives the values under ['LYRICS'] and under
      ['UNSYNCEDLYRICS'] of [FLAC(p)], each [None] when the key is absent;
    - [mp4_lyr p] gives the values under ['\xa9lyr'] of [MP4(p)];
    - [lrclib artist title] gives the fields ['plainLyrics'] and
      ['syncedLyrics'], [lyrics_ovh artist title] the field ['lyrics']. *)
Record Library := {
  MUSIC_DIR : string;
  resolve_absolute : string → option string;
  resolve_relative : string → option string;
  path_exists : string → bool;
  exists_fails : string → bool;
  id3_uslt : string → option (list string);
  flac_tags : string → option (option (list string) * option (list string));
  mp4_lyr : string → option (option (list string));
  lrclib : string → string → option (field * field);
  lyrics_ovh : string → string → option field }.

(** [Path(file_path).is_absolute()] on a POSIX system. *)
Definition is_absolute (file_path : string) : bool :=
  PyStr.is_prefix "/" file_path.

(** Lines 139-150: the resolved path, or [None] when resolving raises or the
    resolved path does not start with [str(MUSIC_DIR)]. *)
Definition full_path_of (lib : Library) (file_path : string) : option string :=
  match (if is_absolute file_path
         then resolve_absolute lib file_path
         else resolve_relative lib file_path) with
  | Some p => if PyStr.is_prefix (MUSIC_DIR lib) p then Some p else None
  | None => None
  end.

(** The loop over the USLT frames: the first text that is not empty. *)
Fixpoint first_text (texts : list string) : field :=
  match texts with
  | [] => None
  | t :: texts' => if PyStr.nonempty t then Some t else first_text texts'
  end.

(** Lines 154-168: the lyrics embedded in the file, by its extension.
    [values[0]] on an empty list raises inside the [try] and leaves
    [lyrics] at [None], which is what [head] gives. *)
Definition embedded_lyrics (lib : Library) (file_path full_path : string)
  : field :=
  let name := PyStr.lower file_path in
  if ends_with ".mp3" name then
    match id3_uslt lib full_path with
    | Some texts => first_text texts
    | None => None
    end
  else if ends_with ".flac" name then
    match flac_tags lib full_path with
    | Some (Some values, _) => head values
    | Some (None, Some values) => head values
    | Some (None, None) => None
    | None => None
    end
  else if ends_with ".m4a" name || ends_with ".mp4" name then
    match mp4_lyr lib full_path with
    | Some (Some values) => head values
    | Some None => None
    | None => None
    end
  else None.

(** Lines 171-189: lrclib.net first, lyrics.ovh when that gave nothing. *)
Definition web_lyrics (lib : Library) (artist title : string) (lyrics : field)
  : field :=
  let lyrics :=
    match lrclib lib artist title with
    | Some (plain, synced) => py_or plain synced
    | None => lyrics
    end in
  if truthy lyrics then lyrics
  else match lyrics_ovh lib artist title with
       | Some l => l
       | None => lyrics
       end.

(** Lines 170-189: [lyrics] as it stands at line 191, from [lyrics] as it
    stands after the embedded lyrics were looked for. *)
Definition after_web (lib : Library) (artist title : string) (lyrics : field)
  : field :=
  if negb (truthy lyrics) && PyStr.nonempty artist && PyStr.nonempty title
  then web_lyrics lib artist title lyrics
  else lyrics.

(** [lyrics] as it stands at line 191, or [None] when [full_path.exists()]
    at line 153, which no [try] protects, raises. *)
Definition find_lyrics (lib : Library) (file_path artist title : string)
  : option field :=
  match full_path_of lib file_path with
  | Some p =>
      if exists_fails lib p then None
      else Some (after_web lib artist title
                   (if path_exists lib p then embedded_lyrics lib file_path p
                    else None))
  | None => Some (after_web lib artist title None)
  end.

(** ** The router and the player proxy (lines 35-42, 63-126, 199-215) *)

Definition ALLOWED_COMMANDS : list string :=
  ["status"; "current"; "play"; "pause"; "stop"; "next"; "prev"; "toggle";
   "volume"; "repeat"; "random"; "single"; "consume";
   "playlist"; "add"; "del"; "clear"; "shuffle"; "move";
   "search"; "find"; "findadd"; "searchadd"; "listall";
   "albumart"; "readpicture"; "update"; "stats"].

(** How a call of [subprocess.check_output] ends: with the output, with a
    [CalledProcessError] whose [output] prints as [shown], or with another
    exception that prints as [shown]. *)
Inductive ProcResult (A : Type) :=
  | Completed (out : A)
  | CalledProcessError (shown : string)
  | OtherException (shown : string).

Arguments Completed {A} out.
Arguments CalledProcessError {A} shown.
Arguments OtherException {A} shown.

(** The machine the server runs on: [mpc] called for bytes and for text, and
    the content of [mpd-spiffy.html] ([None] when it cannot be read). *)
Record Host := {
  mpc_bytes : list string → ProcResult (list byte);
  mpc_text : list string → ProcResult string;
  html_page : option (list byte) }.

(** The answers of the server. *)
Inductive Reply :=
  (** an answer of the image cache *)
  | CacheReply (r : Response)
  (** status 200, [text/html], the page *)
  | HtmlPage (body : list byte)
  (** status 200 and the header were sent, then reading the page raised *)
  | HtmlUnreadable
  (** status 200, [text/plain; charset=utf-8] *)
  | TextReply (body : string)
  (** status 200 and the header were sent, then encoding the body raised *)
  | TextUnsent
  (** status 200, [image/jpeg] *)
  | JpegReply (body : list byte)
  (** [send_error(code, message)] *)
  | ErrorReply (code : nat) (message : string)
  (** [do_GET] raised before anything was sent *)
  | Crashed (e : PyException).

(** What a request did: its answer and the command lines it ran. *)
Record Outcome := { reply : Reply; spawned : list (list string) }.

(** A request as [do_GET] sees it: [urlparse(self.path).path] and the
    dictionary of [parse_qs]. *)
Record GetRequest := {
  url_path : string;
  query : gmap string (list string) }.

(** [send_error(code, message)]: the status line carries the message and is
    encoded before anything is sent. *)
Definition send_error (code : nat) (message : string) : Reply :=
  if latin1 message then ErrorReply code message
  else Crashed UnicodeEncodeError.

(** Lines 191-197: the text that is sent for [lyrics]. *)
Definition lyrics_text (lyrics : field) : string :=
  match lyrics with
  | Some text => if PyStr.nonempty text then text else "No lyrics found"
  | None => "No lyrics found"
  end.

Definition handle_lyrics (lib : Library) (args : list string) : Reply :=
  match args with
  | [] => send_error 400 "No file path provided"
  | file_path :: rest =>
      let artist := default "" (rest !! 0) in
      let title := default "" (rest !! 1) in
      match find_lyrics lib file_path artist title with
      | None => Crashed OSError
      | Some lyrics =>
          if utf8 (lyrics_text lyrics) then TextReply (lyrics_text lyrics)
          else TextUnsent
      end
  end.

(** The [try] block shared by the proxy paths, for a call in text mode.
    The output was decoded strictly, so it can be encoded again. *)
Definition text_reply (prefix : string) (r : ProcResult string) : Reply :=
  match r with
  | Completed out => TextReply out
  | CalledProcessError shown => send_error 500 (prefix +:+ shown)
  | OtherException shown => send_error 500 ("Server error: " +:+ shown)
  end.

Definition handle_list (h : Host) (args : list string) : Outcome :=
  match args with
  | [] => {| reply := send_error 400 "Missing arguments for list command";
             spawned := [] |}
  | what :: rest =>
      let argv := (["mpc"; "list"; what] ++ rest)%list in
      {| reply := text_reply "mpc list error: " (mpc_text h argv);
         spawned := [argv] |}
  end.

(** [q.get(key, [default])[0]]: the first value of the key. *)
Definition first_value (q : gmap string (list string)) (key : string)
    (default : field) : option field :=
  match q !! key with
  | None => Some default
  | Some (v :: _) => Some (Some v)
  | Some [] => None
  end.

(** Lines 104-126: the whitelisted commands. *)
Definition run_mpc (h : Host) (fmt : field) (binary : bool) (cmd : string)
    (args : list string) : Outcome :=
  let mpc_args :=
    (["mpc"] ++ (match fmt with
                 | Some f => if PyStr.nonempty f then ["-f"; f] else []
                 | None => []
                 end) ++ [cmd] ++ args)%list in
  {| reply :=
       if binary then
         match mpc_bytes h mpc_args with
         | Completed out => JpegReply out
         | CalledProcessError shown => send_error 500 ("mpc error: " +:+ shown)
         | OtherException shown => send_error 500 ("Server error: " +:+ shown)
         end
       else text_reply "mpc error: " (mpc_text h mpc_args);
     spawned := [mpc_args] |}.

Definition do_GET (h : Host) (lib : Library) (w : World) (o : WriteOutcome)
    (rq : GetRequest) (st : State) : State * Outcome :=
  let q := query rq in
  match first_value q "cmd" (Some ""), first_value q "format" None with
  | None, _ | _, None => (st, {| reply := Crashed IndexError; spawned := [] |})
  | Some cmd_value, Some fmt =>
      let cmd := default "" cmd_value in
      let binary := bool_decide (is_Some (q !! "binary")) in
      let args := default [] (q !! "args") in
      if bool_decide (url_path rq ∈ ["/"; "/mpd-spiffy.html"])
         && negb (PyStr.nonempty cmd)
      then (st, {| reply := match html_page h with
                            | Some page => HtmlPage page
                            | None => HtmlUnreadable
                            end;
                   spawned := [] |})
      else if decide (cmd = "lyrics")
      then (st, {| reply := handle_lyrics lib args; spawned := [] |})
      else if decide (cmd = "artistart")
      then let '(st', r) := handle_artistart w args st in
           (st', {| reply := CacheReply r; spawned := [] |})
      else if decide (cmd = "blacklistimg")
      then let '(st', r) := handle_blacklist o args st in
           (st', {| reply := CacheReply r; spawned := [] |})
      else if decide (cmd = "list")
      then (st, handle_list h args)
      else if negb (PyStr.nonempty cmd)
      then (st, {| reply := send_error 400 "Missing cmd parameter";
                   spawned := [] |})
      else if negb (bool_decide (cmd ∈ ALLOWED_COMMANDS))
      then (st, {| reply := send_error 403 ("Command not allowed: " +:+ cmd);
                   spawned := [] |})
      else (st, run_mpc h fmt binary cmd args)
  end.

(** The library [lib] with other answers of the two lyrics services. *)
Definition with_services (lib : Library)
    (l : string → string → option (field * field))
    (v : string → string → option field) : Library :=
  {| MUSIC_DIR := MUSIC_DIR lib;
     resolve_absolute := resolve_absolute lib;
     resolve_relative := resolve_relative lib;
     path_exists := path_exists lib;
     exists_fails := exists_fails lib;
     id3_uslt := id3_uslt lib;
     flac_tags := flac_tags lib;
     mp4_lyr := mp4_lyr lib;
     lrclib := l;
     lyrics_ovh := v |}.

(** The library [lib] with other tag readers. *)
Definition with_readers (lib : Library)
    (i : string → option (list string))
    (f : string → option (option (list string) * option (list string)))
    (m : string → option (option (list string))) : Library :=
  {| MUSIC_DIR := MUSIC_DIR lib;
     resolve_absolute := resolve_absolute lib;
     resolve_relative := resolve_relative lib;
     path_exists := path_exists lib;
     exists_fails := exists_fails lib;
     id3_uslt := i;
     flac_tags := f;
     mp4_lyr := m;
     lrclib := lrclib lib;
     lyrics_ovh := lyrics_ovh lib |}.

(** ** Concrete libraries and hosts for the scenarios *)

(** A library under [music_dir] in which every path resolves to itself
    (relative ones below [music_dir]) and exists, no file has tags and no
    service answers. *)
Definition bare_library (music_dir : string) : Library :=
  {| MUSIC_DIR := music_dir;
     resolve_absolute := λ p, Some p;
     resolve_relative := λ p, Some (music_dir +:+ "/" +:+ p);
     path_exists := λ _, true;
     exists_fails := λ _, false;
     id3_uslt := λ _, None;
     flac_tags := λ _, None;
     mp4_lyr := λ _, None;
     lrclib := λ _ _, None;
     lyrics_ovh := λ _ _, None |}.

(** A host on which [mpc] prints its command line and the page is empty. *)
Definition echo_host : Host :=
  {| mpc_bytes := λ _, Completed [];
     mpc_text := λ argv, Completed (String.concat " " argv);
     html_page := Some [] |}.

(** The request [path?cmd=<cmd>&args=<a1>&args=<a2>...]. *)
Definition get_request (path cmd : string) (args : list string) : GetRequest :=
  {| url_path := path;
     query := <["cmd" := [cmd]]> (<["args" := args]> ∅) |}.

(** * Properties *)

#[local] Arguments Nat.modulo : simpl never.
#[local] Arguments Nat.div : simpl never.

(** ** The string primitives on examples *)

Example lower_mixed : PyStr.lower "Daft Punk|OST" = "daft punk|ost".
Proof. reflexivity. Qed.

Example strip_both : PyStr.strip "  X y " = "X y".
Proof. reflexivity. Qed.

Example contains_placeholder :
  PyStr.contains "ui-avatars.com" "https://ui-avatars.com/api/?name=X" = true.
Proof. reflexivity. Qed.

(** U+00E9 is in Latin-1 and U+0101 is not; U+D800, a lone surrogate, has no
    UTF-8 encoding. *)
Example latin1_examples :
  latin1 "Beyoncé|" = true ∧ latin1 "ā|" = false ∧
  utf8 "ā|" = true ∧
  utf8 (String (ascii_of_nat 237) (String (ascii_of_nat 160)
         (String (ascii_of_nat 128) EmptyString))) = false.
Proof. done. Qed.

Lemma append_String c (s t : string) : String c s +:+ t = String c (s +:+ t).
Proof. reflexivity. Qed.

Lemma append_empty (t : string) : EmptyString +:+ t = t.
Proof. reflexivity. Qed.

Lemma is_prefix_spec p :
  ∀ s, PyStr.is_prefix p s = true ↔ ∃ t, s = p +:+ t.
Proof.
  induction p as [|a p IH]; intros s; simpl.
  - split; [|done]. intros _. by exists s.
  - destruct s as [|b s].
    + split; [done|]. intros [t Ht]. by rewrite append_String in Ht.
    + destruct (ascii_dec a b) as [->|Hne].
      * rewrite IH. split; intros [t Ht]; exists t.
        -- by rewrite append_String, Ht.
        -- rewrite append_String in Ht. congruence.
      * split; [done|]. intros [t Ht].
        rewrite append_String in Ht. congruence.
Qed.

(** [PyStr.contains] is the substring test of Python's [in]. *)
Lemma contains_spec needle :
  ∀ hay, PyStr.contains needle hay = true ↔ ∃ a b, hay = a +:+ needle +:+ b.
Proof.
  induction hay as [|c hay IH]; simpl.
  - rewrite orb_false_r, is_prefix_spec. split.
    + intros [t Ht]. by exists EmptyString, t.
    + intros (a & b & Hab). destruct a as [|c a].
      * by exists b.
      * by rewrite append_String in Hab.
  - rewrite orb_true_iff, is_prefix_spec, IH. split.
    + intros [[t Ht]|(a & b & Hab)].
      * by exists EmptyString, t.
      * exists (String c a), b. by rewrite append_String, Hab.
    + intros (a & b & Hab). destruct a as [|c' a].
      * left. by exists b.
      * right. exists a, b. rewrite append_String in Hab. congruence.
Qed.

(** ** Invariants of the cache *)

Lemma cursor_in_range_nonempty st : cursor_in_range st → sets_nonempty st.
Proof.
  intros Hc k images Hk ->.
  destruct (Hc k [] Hk) as (idx & _ & Hlt). simpl in Hlt. lia.
Qed.

Lemma initial_cursor_in_range file : cursor_in_range (initial_state file).
Proof. intros k images Hk. simpl in Hk. by rewrite lookup_empty in Hk. Qed.

Lemma serve_hit k st images idx r :
  image_cache st !! k = Some images →
  image_index st !! k = Some idx →
  images !! idx = Some r →
  serve k st =
    ({| IMAGE_BLACKLIST := IMAGE_BLACKLIST st;
        BLACKLIST_FILE := BLACKLIST_FILE st;
        image_cache := image_cache st;
        image_index := <[k := (idx + 1) mod length images]> (image_index st);
        current_image_url := <[k := img_url r]> (current_image_url st) |},
     image_answer r (idx + 1) (length images) k).
Proof. intros Hc Hi Hr. unfold serve. by rewrite Hc, Hi, Hr. Qed.


Lemma image_answer_cases r position total k :
  image_answer r position total k
    = Image (content_type r) position total k (img_data r) ∨
  image_answer r position total k = Raised UnicodeEncodeError.
Proof. unfold image_answer. destruct (_ && _); eauto. Qed.

Lemma serve_cache k st : image_cache (serve k st).1 = image_cache st.
Proof.
  unfold serve.
  destruct (image_cache st !! k) as [images|]; [|done].
  destruct (image_index st !! k) as [idx|]; [|done].
  by destruct (images !! idx).
Qed.

Lemma serve_blacklist k st : IMAGE_BLACKLIST (serve k st).1 = IMAGE_BLACKLIST st.
Proof.
  unfold serve.
  destruct (image_cache st !! k) as [images|]; [|done].
  destruct (image_index st !! k) as [idx|]; [|done].
  by destruct (images !! idx).
Qed.

Lemma serve_cursor_in_range k st :
  cursor_in_range st → cursor_in_range (serve k st).1.
Proof.
  intros Hc. unfold serve.
  destruct (image_cache st !! k) as [images|] eqn:Hk; [|done].
  destruct (image_index st !! k) as [idx|] eqn:Hi; [|done].
  destruct (images !! idx) as [r|] eqn:Hr; [|done].
  intros k' images' Hk'. simpl in *.
  destruct (decide (k = k')) as [<-|Hne].
  - rewrite lookup_insert_eq. assert (images' = images) as -> by congruence.
    eexists. split; [done|].
    apply Nat.mod_upper_bound. apply lookup_lt_Some in Hr. lia.
  - rewrite lookup_insert_ne by done. by apply Hc.
Qed.

Lemma handle_artistart_cursor_in_range w args st :
  cursor_in_range st → cursor_in_range (handle_artistart w args st).1.
Proof.
  intros Hc. unfold handle_artistart.
  destruct args as [|a0 rest]; [done|].
  set (k := cache_key_of _ _).
  destruct (image_cache st !! k) eqn:Hk; [by apply serve_cursor_in_range|].
  destruct (filter_blacklisted _ _) as [|u us]; [done|].
  destruct (download_all w (u :: us)) as [|r rs] eqn:Hd; [done|].
  apply serve_cursor_in_range.
  intros k' images' Hk'. simpl in *.
  destruct (decide (k = k')) as [<-|Hne].
  - rewrite lookup_insert_eq in Hk'. rewrite lookup_insert_eq.
    injection Hk' as <-. exists 0. split; [done|]. simpl. lia.
  - rewrite lookup_insert_ne in Hk' by done. rewrite lookup_insert_ne by done.
    by apply Hc.
Qed.

Lemma handle_blacklist_cursor_in_range o args st :
  cursor_in_range st → cursor_in_range (handle_blacklist o args st).1.
Proof.
  intros Hc. unfold handle_blacklist.
  destruct args as [|a0 rest]; [done|].
  set (k := PyStr.lower a0).
  destruct (current_image_url st !! k) as [url|]; [|done].
  destruct (is_placeholder url); [done|].
  destruct (image_cache st !! k) as [images|] eqn:Hk; [|done].
  destruct (filter _ images) as [|r kept] eqn:Hf.
  - intros k' images' Hk'. simpl in *.
    destruct (decide (k = k')) as [<-|Hne].
    + by rewrite lookup_delete_eq in Hk'.
    + rewrite lookup_delete_ne in Hk' by done. rewrite lookup_delete_ne by done.
      by apply Hc.
  - destruct (Hc k images Hk) as (idx & Hi & Hlt). rewrite Hi.
    intros k' images' Hk'. simpl in *.
    destruct (decide (k = k')) as [<-|Hne].
    + rewrite lookup_insert_eq in Hk'. rewrite lookup_insert_eq.
      injection Hk' as <-. eexists. split; [done|].
      apply Nat.mod_upper_bound. simpl. lia.
    + rewrite lookup_insert_ne in Hk' by done. rewrite lookup_insert_ne by done.
      by apply Hc.
Qed.

Lemma step_cursor_in_range rq st :
  cursor_in_range st → cursor_in_range (step rq st).1.
Proof.
  destruct rq; simpl;
    [apply handle_artistart_cursor_in_range | apply handle_blacklist_cursor_in_range].
Qed.

Lemma reachable_cursor_in_range st : reachable st → cursor_in_range st.
Proof.
  induction 1 as [file|rq st _ IH].
  - apply initial_cursor_in_range.
  - by apply step_cursor_in_range.
Qed.

Lemma run_app rqs1 rqs2 st :
  run (rqs1 ++ rqs2) st =
    let '(st1, rs1) := run rqs1 st in
    let '(st2, rs2) := run rqs2 st1 in
    (st2, (rs1 ++ rs2)%list).
Proof.
  revert st. induction rqs1 as [|rq rqs1 IH]; intros st; simpl.
  - by destruct (run rqs2 st).
  - destruct (step rq st) as [st1 r]. rewrite IH.
    destruct (run rqs1 st1) as [st2 rs1]. by destruct (run rqs2 st2).
Qed.

Lemma run_reachable rqs st : reachable st → reachable (run rqs st).1.
Proof.
  revert st. induction rqs as [|rq rqs IH]; intros st Hst; simpl; [done|].
  pose proof (reachable_step rq st Hst) as H1.
  destruct (step rq st) as [st1 r]. simpl in H1.
  specialize (IH st1 H1). by destruct (run rqs st1).
Qed.

(** ** Rotation on cache hits *)

Lemma handle_artistart_hit w a0 rest st images :
  image_cache st !! cache_key_of (artist_of a0) (album_of rest) = Some images →
  handle_artistart w (a0 :: rest) st =
    serve (cache_key_of (artist_of a0) (album_of rest)) st.
Proof. intros Hk. unfold handle_artistart. by rewrite Hk. Qed.






(** The scenario of the key ["x|"]: the first call fetches the only image and
    serves it as 1/1, the second call serves it again as 1/1. *)
Example single_image_scenario :
  position_of <$>
    (run [ArtistArt (artist_world (Some "http://img/x.png") None 600) ["X"];
          ArtistArt offline ["X"]] (initial_state None)).2
  = [Some (1, 1); Some (1, 1)].
Proof. vm_compute. reflexivity. Qed.

(** ** Cache misses *)

Lemma fetch_Some w i url r :
  fetch w i url = Some r →
  ∃ header,
    urlopen_image w i url = Some (img_data r, header) ∧
    500 < length (img_data r) ∧
    content_type r = default "image/jpeg" header ∧
    img_url r = url.
Proof.
  unfold fetch. intros H.
  destruct (urlopen_image w i url) as [[data header]|]; [|done].
  destruct (500 <? length data)%nat eqn:Hlen; [|done].
  injection H as <-. exists header. simpl.
  apply Nat.ltb_lt in Hlen. done.
Qed.

Lemma download_from_elem w urls :
  ∀ i r, r ∈ download_from w i urls →
    ∃ j, urls !! j = Some (img_url r) ∧ fetch w (i + j) (img_url r) = Some r.
Proof.
  induction urls as [|u urls IH]; intros i r Hr; simpl in Hr.
  - by apply not_elem_of_nil in Hr.
  - assert (Hrest : r ∈ download_from w (S i) urls →
      ∃ j, (u :: urls) !! j = Some (img_url r) ∧
           fetch w (i + j) (img_url r) = Some r).
    { intros Hin. destruct (IH _ _ Hin) as (j & Hj & Hf).
      exists (S j). split; [done|].
      by replace (i + S j) with (S i + j) by lia. }
    destruct (fetch w i u) as [r0|] eqn:Hf; [|by apply Hrest].
    apply elem_of_cons in Hr as [->|Hin]; [|by apply Hrest].
    destruct (fetch_Some _ _ _ _ Hf) as (_ & _ & _ & _ & Hu).
    exists 0. rewrite Nat.add_0_r, Hu. done.
Qed.

Lemma filter_blacklisted_elem blacklist urls u :
  u ∈ filter_blacklisted blacklist urls ↔ (u ∉ blacklist) ∧ (u ∈ urls).
Proof. unfold filter_blacklisted. by rewrite list_elem_of_filter. Qed.

(** A miss with at least one successful download creates the set, serves its
    first record as position 1 and leaves the cursor behind it. *)
Lemma handle_artistart_miss_served w a0 rest st u us r rs :
  let k := cache_key_of (artist_of a0) (album_of rest) in
  image_cache st !! k = None →
  filter_blacklisted (IMAGE_BLACKLIST st)
    (collect_image_urls w (artist_of a0) (album_of rest)) = u :: us →
  download_all w (u :: us) = r :: rs →
  handle_artistart w (a0 :: rest) st =
    ({| IMAGE_BLACKLIST := IMAGE_BLACKLIST st;
        BLACKLIST_FILE := BLACKLIST_FILE st;
        image_cache := <[k := r :: rs]> (image_cache st);
        image_index :=
          <[k := 1 mod length (r :: rs)]> (<[k := 0]> (image_index st));
        current_image_url := <[k := img_url r]> (current_image_url st) |},
     image_answer r 1 (length (r :: rs)) k).
Proof.
  intros k Hk Hc Hd. unfold handle_artistart. fold k.
  rewrite Hk, Hc, Hd.
  rewrite (serve_hit k _ (r :: rs) 0 r); [done|..];
    simpl; by rewrite ?lookup_insert_eq.
Qed.

(** C3. On a cache miss: when no candidate survives the blacklist filter the
    answer is 204 (Empty) and the state is left as it was; when candidates
    survive but no download succeeds the answer is 404 (NotFound) and the
    state is left as it was, so no set is stored for the key in either case.
    The two answers differ, and 204 is given only when the filtered list is
    empty. *)
Theorem miss_empty_or_not_found :
  ∀ (w : World) (a0 : string) (rest : list string) (st : State),
    let k := cache_key_of (artist_of a0) (album_of rest) in
    let candidates :=
      filter_blacklisted (IMAGE_BLACKLIST st)
        (collect_image_urls w (artist_of a0) (album_of rest)) in
    let out := handle_artistart w (a0 :: rest) st in
    image_cache st !! k = None →
    (candidates = [] →
       out = (st, NoContent) ∧ image_cache out.1 !! k = None) ∧
    (candidates ≠ [] → download_all w candidates = [] →
       out = (st, SendError 404 "Could not fetch images") ∧
       image_cache out.1 !! k = None) ∧
    (status out.2 = Some 204 ↔ candidates = []) ∧
    (status out.2 = Some 404 ↔
       candidates ≠ [] ∧ download_all w candidates = []) ∧
    (candidates ≠ [] → out.2 ≠ NoContent) ∧
    NoContent ≠ SendError 404 "Could not fetch images".
Proof.
  intros w a0 rest st k candidates out Hk.
  assert (Hempty : candidates = [] → out = (st, NoContent)).
  { intros Hc. unfold out, handle_artistart. fold k. rewrite Hk.
    fold candidates. by rewrite Hc. }
  assert (Hfail : candidates ≠ [] → download_all w candidates = [] →
            out = (st, SendError 404 "Could not fetch images")).
  { intros Hc Hd. unfold out, handle_artistart. fold k. rewrite Hk.
    fold candidates. destruct candidates as [|u us]; [done|]. by rewrite Hd. }
  assert (Hserved : ∀ r rs, candidates ≠ [] →
            download_all w candidates = r :: rs →
            out.2 = Image (content_type r) 1 (length (r :: rs)) k (img_data r) ∨
            out.2 = Raised UnicodeEncodeError).
  { intros r rs Hc Hd. destruct candidates as [|u us] eqn:Hcs; [done|].
    unfold out.
    rewrite (handle_artistart_miss_served w a0 rest st u us r rs) by done.
    apply image_answer_cases. }
  split; [|split; [|split; [|split; [|split]]]].
  - intros Hc. rewrite (Hempty Hc). done.
  - intros Hc Hd. rewrite (Hfail Hc Hd). done.
  - split; [|by intros Hc; rewrite (Hempty Hc)].
    intros Hs. destruct candidates as [|u us] eqn:Hcs; [done|].
    destruct (download_all w (u :: us)) as [|r rs] eqn:Hd.
    + by rewrite Hfail in Hs.
    + by destruct (Hserved r rs) as [Ho|Ho]; rewrite ?Ho in Hs.
  - split.
    + intros Hs. destruct candidates as [|u us] eqn:Hcs.
      { by rewrite Hempty in Hs. }
      destruct (download_all w (u :: us)) as [|r rs] eqn:Hd; [done|].
      by destruct (Hserved r rs) as [Ho|Ho]; rewrite ?Ho in Hs.
    + intros [Hc Hd]. by rewrite (Hfail Hc Hd).
  - intros Hc. destruct (download_all w candidates) as [|r rs] eqn:Hd.
    + by rewrite (Hfail Hc eq_refl).
    + by destruct (Hserved r rs Hc eq_refl) as [->| ->].
  - done.
Qed.

Lemma miss_witness :
  let w := artist_world (Some "http://img/x.png") None 100 in
  let st := initial_state None in
  image_cache st !! "x|" = None ∧
  handle_artistart w ["X"] st = (st, SendError 404 "Could not fetch images") ∧
  handle_artistart w ["X"] (initial_state (Some ["http://img/x.png"]))
    = (initial_state (Some ["http://img/x.png"]), NoContent).
Proof.
  intros w st.
  assert (Hk : image_cache st !! "x|" = None) by reflexivity.
  split; [exact Hk|]. split.
  - destruct (miss_empty_or_not_found w "X" [] st Hk) as (_ & Hfail & _).
    apply Hfail; [by vm_compute|by vm_compute].
  - destruct (miss_empty_or_not_found w "X" []
                (initial_state (Some ["http://img/x.png"])) eq_refl)
      as (Hempty & _).
    apply Hempty. by vm_compute.
Defined.

(** ** The blacklist only grows, and created sets avoid it *)

Lemma handle_artistart_blacklist w args st :
  IMAGE_BLACKLIST (handle_artistart w args st).1 = IMAGE_BLACKLIST st.
Proof.
  unfold handle_artistart. destruct args as [|a0 rest]; [done|].
  destruct (image_cache st !! _); [apply serve_blacklist|].
  destruct (filter_blacklisted _ _) as [|u us]; [done|].
  destruct (download_all w (u :: us)); [done|].
  by rewrite serve_blacklist.
Qed.

(** What [handle_blacklist] does to the blacklist: nothing, or it adds the
    last served URL of the key, which is then not a placeholder. *)
Lemma handle_blacklist_blacklist o args st :
  IMAGE_BLACKLIST (handle_blacklist o args st).1 = IMAGE_BLACKLIST st ∨
  ∃ a0 rest url,
    args = a0 :: rest ∧
    current_image_url st !! PyStr.lower a0 = Some url ∧
    is_placeholder url = false ∧
    IMAGE_BLACKLIST (handle_blacklist o args st).1 = IMAGE_BLACKLIST st ∪ {[url]}.
Proof.
  unfold handle_blacklist. destruct args as [|a0 rest]; [by left|].
  destruct (current_image_url st !! PyStr.lower a0) as [url|] eqn:Hu; [|by left].
  destruct (is_placeholder url) eqn:Hp; [by left|].
  right. exists a0, rest, url. split; [done|]. split; [done|]. split; [done|].
  destruct (image_cache st !! PyStr.lower a0) as [images|]; [|done].
  destruct (filter _ images); [done|].
  by destruct (image_index st !! PyStr.lower a0).
Qed.

Lemma step_blacklist_mono rq st :
  IMAGE_BLACKLIST st ⊆ IMAGE_BLACKLIST (step rq st).1.
Proof.
  destruct rq as [w args|o args]; simpl.
  - by rewrite handle_artistart_blacklist.
  - destruct (handle_blacklist_blacklist o args st)
      as [->|(_ & _ & url & _ & _ & _ & ->)]; set_solver.
Qed.

Lemma run_blacklist_mono rqs :
  ∀ st, IMAGE_BLACKLIST st ⊆ IMAGE_BLACKLIST (run rqs st).1.
Proof.
  induction rqs as [|rq rqs IH]; intros st; simpl; [done|].
  pose proof (step_blacklist_mono rq st) as H1.
  destruct (step rq st) as [st1 r]. specialize (IH st1).
  destruct (run rqs st1) as [st2 rs]. simpl in *. set_solver.
Qed.

(** A set created by a miss holds successful downloads of candidates that
    passed the blacklist filter. *)
Lemma created_set_from_candidates w a0 rest st images :
  let k := cache_key_of (artist_of a0) (album_of rest) in
  image_cache st !! k = None →
  image_cache (handle_artistart w (a0 :: rest) st).1 !! k = Some images →
  images =
    download_all w
      (filter_blacklisted (IMAGE_BLACKLIST st)
         (collect_image_urls w (artist_of a0) (album_of rest))).
Proof.
  intros k Hk Hcreated.
  destruct (filter_blacklisted (IMAGE_BLACKLIST st)
              (collect_image_urls w (artist_of a0) (album_of rest)))
    as [|u us] eqn:Hc.
  { unfold handle_artistart in Hcreated. fold k in Hcreated.
    rewrite Hk, Hc in Hcreated. simpl in Hcreated. congruence. }
  destruct (download_all w (u :: us)) as [|r rs] eqn:Hd.
  { unfold handle_artistart in Hcreated. fold k in Hcreated.
    rewrite Hk, Hc, Hd in Hcreated. simpl in Hcreated. congruence. }
  rewrite (handle_artistart_miss_served w a0 rest st u us r rs Hk Hc Hd)
    in Hcreated.
  simpl in Hcreated. fold k in Hcreated.
  rewrite lookup_insert_eq in Hcreated. congruence.
Qed.

(** C6. When a call creates the set of a key, no record of the new set has a
    URL that is in the blacklist at that time.  The blacklist of a running
    server contains every URL listed in the blacklist file it started from,
    so no such record has a URL of that file either. *)
Theorem created_set_avoids_blacklist :
  ∀ (w : World) (a0 : string) (rest : list string) (st : State)
    (images : list ImageRecord),
    let k := cache_key_of (artist_of a0) (album_of rest) in
    image_cache st !! k = None →
    image_cache (handle_artistart w (a0 :: rest) st).1 !! k = Some images →
    (∀ r, r ∈ images → img_url r ∉ IMAGE_BLACKLIST st) ∧
    (∀ (listed : list string) (rqs : list Request),
        st = (run rqs (initial_state (Some listed))).1 →
        ∀ r u, r ∈ images → u ∈ listed → img_url r ≠ u).
Proof.
  intros w a0 rest st images k Hk Hcreated.
  assert (Havoid : ∀ r, r ∈ images → img_url r ∉ IMAGE_BLACKLIST st).
  { intros r Hr.
    rewrite (created_set_from_candidates w a0 rest st images Hk Hcreated) in Hr.
    apply download_from_elem in Hr as (j & Hj & _).
    apply list_elem_of_lookup_2 in Hj.
    by apply filter_blacklisted_elem in Hj as [Hnot _]. }
  split; [done|].
  intros listed rqs -> r u Hr Hu Heq. subst u.
  apply (Havoid r Hr).
  apply (run_blacklist_mono rqs (initial_state (Some listed))).
  simpl. by apply elem_of_list_to_set.
Qed.

Lemma created_set_witness :
  let w := artist_world (Some "http://img/x.png") (Some "http://img/fan.png") 600 in
  let st := initial_state (Some ["http://img/x.png"]) in
  let r := {| img_data := body_of_size 600; content_type := "image/png";
              img_url := "http://img/fan.png" |} in
  image_cache st !! "x|" = None ∧
  image_cache (handle_artistart w ["X"] st).1 !! "x|" = Some [r] ∧
  (img_url r ∉ IMAGE_BLACKLIST st) ∧
  img_url r ≠ "http://img/x.png".
Proof.
  intros w st r.
  assert (Hk : image_cache st !! "x|" = None) by reflexivity.
  assert (Hc : image_cache (handle_artistart w ["X"] st).1 !! "x|" = Some [r])
    by (vm_compute; reflexivity).
  destruct (created_set_avoids_blacklist w "X" [] st [r] Hk Hc) as [H1 H2].
  split; [exact Hk|]. split; [exact Hc|]. split.
  - apply H1. apply list_elem_of_singleton. reflexivity.
  - apply (H2 ["http://img/x.png"] [] eq_refl r "http://img/x.png").
    + apply list_elem_of_singleton. reflexivity.
    + apply list_elem_of_singleton. reflexivity.
Defined.

(** ** No empty set is ever cached *)

Lemma handle_artistart_nonempty w args st :
  sets_nonempty st → sets_nonempty (handle_artistart w args st).1.
Proof.
  intros Hne. unfold handle_artistart.
  destruct args as [|a0 rest]; [done|].
  set (k := cache_key_of _ _).
  destruct (image_cache st !! k) eqn:Hk.
  { intros k' images'. rewrite serve_cache. apply Hne. }
  destruct (filter_blacklisted _ _) as [|u us]; [done|].
  destruct (download_all w (u :: us)) as [|r rs]; [done|].
  intros k' images'. rewrite serve_cache. simpl.
  destruct (decide (k = k')) as [<-|Hd].
  - rewrite lookup_insert_eq. by intros [= <-].
  - rewrite lookup_insert_ne by done. apply Hne.
Qed.

Lemma handle_blacklist_nonempty o args st :
  sets_nonempty st → sets_nonempty (handle_blacklist o args st).1.
Proof.
  intros Hne. unfold handle_blacklist.
  destruct args as [|a0 rest]; [done|].
  set (k := PyStr.lower a0).
  destruct (current_image_url st !! k) as [url|]; [|done].
  destruct (is_placeholder url); [done|].
  destruct (image_cache st !! k) as [images|] eqn:Hk; [|done].
  destruct (filter _ images) as [|r kept] eqn:Hf.
  - intros k' images'. simpl.
    destruct (decide (k = k')) as [<-|Hd].
    + by rewrite lookup_delete_eq.
    + rewrite lookup_delete_ne by done. apply Hne.
  - assert (Hins : ∀ k' images',
      <[k := r :: kept]> (image_cache st) !! k' = Some images' → images' ≠ []).
    { intros k' images'. destruct (decide (k = k')) as [<-|Hd].
      - rewrite lookup_insert_eq. by intros [= <-].
      - rewrite lookup_insert_ne by done. apply Hne. }
    by destruct (image_index st !! k).
Qed.

(** C7. A set that is stored for a key has at least one record.  Both
    operations keep it so from any state in which it holds, and it holds at
    start-up, hence in every state the server can reach.  This is how they
    keep it: on a miss [handle_artistart] stores the downloads under the key
    only when there is at least one, and otherwise answers 204 or 404 and
    leaves the state as it was; [handle_blacklist] deletes the set and the
    cursor of the key when no record is left after the removal, and
    otherwise stores the records that are left. *)
Theorem cached_sets_are_never_empty :
  (∀ w args st,
      sets_nonempty st → sets_nonempty (handle_artistart w args st).1) ∧
  (∀ o args st,
      sets_nonempty st → sets_nonempty (handle_blacklist o args st).1) ∧
  (∀ st, reachable st →
      ∀ k images, image_cache st !! k = Some images → 0 < length images) ∧
  (∀ (w : World) (a0 : string) (rest : list string) (st : State),
      let k := cache_key_of (artist_of a0) (album_of rest) in
      let downloads :=
        download_all w
          (filter_blacklisted (IMAGE_BLACKLIST st)
             (collect_image_urls w (artist_of a0) (album_of rest))) in
      let out := handle_artistart w (a0 :: rest) st in
      image_cache st !! k = None →
      (downloads = [] →
         out.1 = st ∧ image_cache out.1 !! k = None ∧
         (out.2 = NoContent ∨ out.2 = SendError 404 "Could not fetch images")) ∧
      (downloads ≠ [] → image_cache out.1 !! k = Some downloads)) ∧
  (∀ (o : WriteOutcome) (a0 : string) (rest : list string) (st : State)
     (url : string) (images : list ImageRecord),
      let k := PyStr.lower a0 in
      let kept := filter (λ img, img_url img ≠ url) images in
      let out := handle_blacklist o (a0 :: rest) st in
      current_image_url st !! k = Some url →
      is_placeholder url = false →
      image_cache st !! k = Some images →
      (kept = [] →
         image_cache out.1 = delete k (image_cache st) ∧
         image_index out.1 = delete k (image_index st) ∧
         image_cache out.1 !! k = None ∧
         image_index out.1 !! k = None) ∧
      (kept ≠ [] → image_cache out.1 !! k = Some kept)).
Proof.
  split; [exact handle_artistart_nonempty|].
  split; [exact handle_blacklist_nonempty|].
  split.
  { intros st Hst k images Hk.
    destruct (reachable_cursor_in_range st Hst k images Hk) as (idx & _ & Hlt).
    lia. }
  split.
  - intros w a0 rest st k downloads out Hk.
    unfold out, downloads, handle_artistart. fold k. rewrite Hk.
    destruct (filter_blacklisted _ _) as [|u us] eqn:Hc.
    { split; [|done]. intros _. split; [done|]. split; [done|]. by left. }
    destruct (download_all w (u :: us)) as [|r rs] eqn:Hd.
    { split; [|done]. intros _. split; [done|]. split; [done|]. by right. }
    split; [done|]. intros _.
    rewrite serve_cache. simpl. by rewrite lookup_insert_eq.
  - intros o a0 rest st url images k kept out Hu Hp Hk.
    unfold out, handle_blacklist. fold k. rewrite Hu, Hp, Hk. fold kept.
    destruct kept as [|r kept'] eqn:Hkept.
    + split; [|done]. intros _. simpl. by rewrite !lookup_delete_eq.
    + split; [done|]. intros _.
      destruct (image_index st !! k); simpl; by rewrite lookup_insert_eq.
Qed.

Lemma cached_sets_witness :
  let w := artist_world (Some "http://img/x.png") (Some "http://img/fan.png") 600 in
  let r := λ u, {| img_data := body_of_size 600; content_type := "image/png";
                   img_url := u |} in
  let st := (handle_artistart w ["X"] (initial_state None)).1 in
  let st1 := (handle_blacklist Written ["x|"] st).1 in
  reachable st1 ∧
  (∀ k images, image_cache st1 !! k = Some images → 0 < length images) ∧
  current_image_url st !! PyStr.lower "x|" = Some "http://img/x.png" ∧
  is_placeholder "http://img/x.png" = false ∧
  image_cache st !! PyStr.lower "x|"
    = Some [r "http://img/x.png"; r "http://img/fan.png"] ∧
  image_cache st1 !! PyStr.lower "x|" = Some [r "http://img/fan.png"] ∧
  current_image_url st1 !! PyStr.lower "x|" = Some "http://img/x.png" ∧
  image_cache (handle_artistart offline ["X"] st1).1 !! "x|"
    = Some [r "http://img/fan.png"] ∧
  current_image_url (handle_artistart offline ["X"] st1).1 !! PyStr.lower "x|"
    = Some "http://img/fan.png" ∧
  image_cache
    (handle_blacklist Written ["x|"] (handle_artistart offline ["X"] st1).1).1
    !! PyStr.lower "x|" = None.
Proof.
  intros w r st st1.
  set (st2 := (handle_artistart offline ["X"] st1).1).
  assert (Hst : reachable st1).
  { apply (reachable_step (BlacklistImg Written ["x|"])).
    apply (reachable_step (ArtistArt w ["X"])). apply reachable_init. }
  assert (Hu : current_image_url st !! PyStr.lower "x|" = Some "http://img/x.png")
    by (vm_compute; reflexivity).
  assert (Hp : is_placeholder "http://img/x.png" = false) by reflexivity.
  assert (Hk : image_cache st !! PyStr.lower "x|"
               = Some [r "http://img/x.png"; r "http://img/fan.png"])
    by (vm_compute; reflexivity).
  assert (Hu2 : current_image_url st2 !! PyStr.lower "x|"
                = Some "http://img/fan.png") by (vm_compute; reflexivity).
  assert (Hp2 : is_placeholder "http://img/fan.png" = false) by reflexivity.
  assert (Hk2 : image_cache st2 !! PyStr.lower "x|"
                = Some [r "http://img/fan.png"]) by (vm_compute; reflexivity).
  destruct cached_sets_are_never_empty as (_ & _ & Hr & _ & Hb).
  destruct (Hb Written "x|" [] st _ _ Hu Hp Hk) as [_ Hkept].
  destruct (Hb Written "x|" [] st2 _ _ Hu2 Hp2 Hk2) as [Hdel _].
  split; [exact Hst|]. split; [exact (Hr st1 Hst)|].
  split; [exact Hu|]. split; [exact Hp|]. split; [exact Hk|].
  split; [apply Hkept; discriminate|].
  split; [vm_compute; reflexivity|].
  split; [exact Hk2|]. split; [exact Hu2|].
  apply Hdel. vm_compute. reflexivity.
Defined.

(** ** [handle_blacklist]: the failure and the protected placeholder *)

Lemma run_placeholder_not_added rqs url :
  is_placeholder url = true →
  ∀ st, url ∈ IMAGE_BLACKLIST (run rqs st).1 → url ∈ IMAGE_BLACKLIST st.
Proof.
  intros Hp. induction rqs as [|rq rqs IH]; intros st; simpl; [done|].
  assert (H1 : url ∈ IMAGE_BLACKLIST (step rq st).1 → url ∈ IMAGE_BLACKLIST st).
  { destruct rq as [w args|o args]; simpl.
    - by rewrite handle_artistart_blacklist.
    - destruct (handle_blacklist_blacklist o args st)
        as [->|(_ & _ & url' & _ & _ & Hnp & ->)]; [done|].
      intros [Hin|Heq%elem_of_singleton]%elem_of_union; [done|].
      subst url'. congruence. }
  destruct (step rq st) as [st1 r]. specialize (IH st1).
  destruct (run rqs st1) as [st2 rs]. simpl in *. auto.
Qed.

(** C5. When the last served URL of the key is a placeholder,
    [handle_blacklist] changes nothing (blacklist, blacklist file, sets,
    cursors, last served URLs) and answers status 200 with the error payload
    and the current number of records of the key.  Over any sequence of
    requests, a placeholder URL that is in the blacklist afterwards was in it
    before: none is ever added. *)
Theorem placeholder_is_never_blacklisted :
  (∀ (o : WriteOutcome) (a0 : string) (rest : list string) (st : State)
     (url : string),
      current_image_url st !! PyStr.lower a0 = Some url →
      is_placeholder url = true →
      handle_blacklist o (a0 :: rest) st
        = (st, CannotBlacklist (remaining_of (PyStr.lower a0) st)) ∧
      status (handle_blacklist o (a0 :: rest) st).2 = Some 200) ∧
  (∀ (rqs : list Request) (st : State) (url : string),
      is_placeholder url = true →
      url ∈ IMAGE_BLACKLIST (run rqs st).1 → url ∈ IMAGE_BLACKLIST st) ∧
  (∀ (rqs : list Request) (file : BlacklistFile) (url : string),
      is_placeholder url = true →
      url ∈ IMAGE_BLACKLIST (run rqs (initial_state file)).1 →
      url ∈ load_blacklist file).
Proof.
  split; [|split].
  - intros o a0 rest st url Hu Hp. unfold handle_blacklist.
    by rewrite Hu, Hp.
  - intros rqs st url Hp. by apply run_placeholder_not_added.
  - intros rqs file url Hp Hin.
    by apply (run_placeholder_not_added rqs url Hp (initial_state file)).
Qed.

Lemma placeholder_witness :
  let url := "https://ui-avatars.com/api/?name=X" in
  let st := (handle_artistart (artist_world (Some url) None 600) ["X"]
               (initial_state None)).1 in
  current_image_url st !! PyStr.lower "X|" = Some url ∧
  is_placeholder url = true ∧
  handle_blacklist Written ["X|"] st = (st, CannotBlacklist 1) ∧
  IMAGE_BLACKLIST
    (run [BlacklistImg Written ["X|"]; BlacklistImg Written ["X|"]] st).1 = ∅.
Proof.
  intros url st.
  assert (Hu : current_image_url st !! PyStr.lower "X|" = Some url)
    by (vm_compute; reflexivity).
  assert (Hp : is_placeholder url = true) by reflexivity.
  destruct placeholder_is_never_blacklisted as (Hnoop & _ & _).
  destruct (Hnoop Written "X|" [] st url Hu Hp) as [Hcall _].
  split; [exact Hu|]. split; [exact Hp|]. split.
  - rewrite Hcall. f_equal.
  - cbn [run step]. rewrite Hcall. rewrite Hcall. reflexivity.
Defined.

(** C9. [handle_blacklist] with a key answers 404 exactly when no URL was
    served for the key so far, and then it leaves the whole state (blacklist,
    blacklist file, sets, cursors, last served URLs) as it was. *)
Theorem no_current_image_iff_nothing_served :
  ∀ (o : WriteOutcome) (a0 : string) (rest : list string) (st : State),
    let out := handle_blacklist o (a0 :: rest) st in
    (status out.2 = Some 404 ↔ current_image_url st !! PyStr.lower a0 = None) ∧
    (out.2 = SendError 404 "No current image for this key"
       ↔ current_image_url st !! PyStr.lower a0 = None) ∧
    (current_image_url st !! PyStr.lower a0 = None → out.1 = st).
Proof.
  intros o a0 rest st out. unfold out, handle_blacklist.
  destruct (current_image_url st !! PyStr.lower a0) as [url|] eqn:Hu; [|done].
  destruct (is_placeholder url); [done|].
  destruct (image_cache st !! PyStr.lower a0) as [images|]; [|done].
  destruct (filter _ images); [done|].
  by destruct (image_index st !! PyStr.lower a0).
Qed.

Lemma no_current_image_witness :
  let st := initial_state (Some ["http://img/x.png"]) in
  current_image_url st !! PyStr.lower "X|" = None ∧
  handle_blacklist Written ["X|"] st
    = (st, SendError 404 "No current image for this key").
Proof.
  intros st.
  assert (Hu : current_image_url st !! PyStr.lower "X|" = None) by reflexivity.
  destruct (no_current_image_iff_nothing_served Written "X|" [] st)
    as (_ & Hresp & Hst).
  split; [exact Hu|].
  pose proof (Hst Hu) as E1. pose proof (proj2 Hresp Hu) as E2.
  destruct (handle_blacklist Written ["X|"] st) as [st' r].
  simpl in E1, E2. rewrite E1, E2. reflexivity.
Defined.

(** ** [handle_blacklist]: removing the last served URL *)

Lemma load_saved_blacklist blacklist file :
  load_blacklist (save_blacklist Written blacklist file) = blacklist.
Proof. simpl. apply list_to_set_elements_L. Qed.

(** C4. When the last served URL of the key is not a placeholder,
    [handle_blacklist] adds it to the blacklist and writes the new blacklist
    to the file (after a successful write the file holds exactly the new
    blacklist).  If the key has a set, the records with that URL, and only
    those, are removed from it; when nothing is left the set and the cursor
    of the key are deleted, otherwise the cursor becomes the old cursor
    modulo the new size, which lies inside the shrunk set.  The answer
    carries the URL and the number of records left.  The cursor of a cached
    set exists in every reachable state ([reachable_cursor_in_range]). *)
Theorem blacklist_current_removes_url :
  ∀ (o : WriteOutcome) (a0 : string) (rest : list string) (st : State)
    (url : string),
    let k := PyStr.lower a0 in
    let out := handle_blacklist o (a0 :: rest) st in
    current_image_url st !! k = Some url →
    is_placeholder url = false →
    cursor_in_range st →
    IMAGE_BLACKLIST out.1 = IMAGE_BLACKLIST st ∪ {[url]} ∧
    BLACKLIST_FILE out.1
      = save_blacklist o (IMAGE_BLACKLIST st ∪ {[url]}) (BLACKLIST_FILE st) ∧
    (o = Written → load_blacklist (BLACKLIST_FILE out.1) = IMAGE_BLACKLIST out.1) ∧
    current_image_url out.1 = current_image_url st ∧
    match image_cache st !! k with
    | None =>
        image_cache out.1 = image_cache st ∧
        image_index out.1 = image_index st ∧
        out.2 = Blacklisted url 0
    | Some images =>
        let kept := filter (λ img, img_url img ≠ url) images in
        (∀ r, r ∈ kept ↔ img_url r ≠ url ∧ r ∈ images) ∧
        (kept = [] →
           image_cache out.1 = delete k (image_cache st) ∧
           image_index out.1 = delete k (image_index st) ∧
           image_cache out.1 !! k = None ∧
           image_index out.1 !! k = None) ∧
        (kept ≠ [] →
           image_cache out.1 = <[k := kept]> (image_cache st) ∧
           ∃ idx, image_index st !! k = Some idx ∧
                  image_index out.1
                    = <[k := idx mod length kept]> (image_index st) ∧
                  idx mod length kept < length kept) ∧
        out.2 = Blacklisted url (length kept) ∧
        remaining_of k out.1 = length kept
    end.
Proof.
  intros o a0 rest st url k out Hu Hp Hc.
  unfold out, handle_blacklist. fold k. rewrite Hu, Hp.
  destruct (image_cache st !! k) as [images|] eqn:Hk.
  2:{ simpl. unfold remaining_of. simpl. rewrite Hk. simpl.
      split_and!; try done.
      intros ->. apply load_saved_blacklist. }
  destruct (Hc k images Hk) as (idx & Hi & Hlt).
  assert (Hmem : ∀ r, r ∈ filter (λ img, img_url img ≠ url) images
                      ↔ img_url r ≠ url ∧ r ∈ images).
  { intros r. by rewrite list_elem_of_filter. }
  destruct (filter (λ img, img_url img ≠ url) images) as [|r kept] eqn:Hf.
  - simpl. unfold remaining_of. simpl. rewrite !lookup_delete_eq. simpl.
    split_and!; try done.
    intros ->. apply load_saved_blacklist.
  - rewrite Hi. simpl. unfold remaining_of. simpl. rewrite lookup_insert_eq.
    simpl.
    split_and!; try done.
    + intros ->. apply load_saved_blacklist.
    + intros _. split; [done|]. exists idx. split_and!; try done.
      apply Nat.mod_upper_bound. simpl. lia.
Qed.

Lemma blacklist_current_witness :
  let w := artist_world (Some "http://img/x.png") (Some "http://img/fan.png") 600 in
  let st := (run [ArtistArt w ["X"]; ArtistArt offline ["X"]]
               (initial_state None)).1 in
  current_image_url st !! PyStr.lower "X|" = Some "http://img/fan.png" ∧
  is_placeholder "http://img/fan.png" = false ∧
  cursor_in_range st ∧
  IMAGE_BLACKLIST (handle_blacklist Written ["X|"] st).1
    = ∅ ∪ {["http://img/fan.png"]} ∧
  BLACKLIST_FILE (handle_blacklist Written ["X|"] st).1
    = Some ["http://img/fan.png"].
Proof.
  intros w st.
  assert (Hu : current_image_url st !! PyStr.lower "X|"
               = Some "http://img/fan.png") by (vm_compute; reflexivity).
  assert (Hp : is_placeholder "http://img/fan.png" = false) by reflexivity.
  assert (Hc : cursor_in_range st).
  { apply reachable_cursor_in_range.
    apply (run_reachable _ (initial_state None)). apply reachable_init. }
  destruct (blacklist_current_removes_url Written "X|" [] st
              "http://img/fan.png" Hu Hp Hc) as (Hb & Hf & _).
  split; [exact Hu|]. split; [exact Hp|]. split; [exact Hc|].
  split; [exact Hb|].
  rewrite Hf. vm_compute. reflexivity.
Defined.

(** The run behind the witness: two images, the second one is on screen and
    gets blacklisted; one record is left and the cursor, which had wrapped
    to 0, stays at 0. *)
Example blacklist_second_of_two :
  let w := artist_world (Some "http://img/x.png") (Some "http://img/fan.png") 600 in
  let out := run [ArtistArt w ["X"]; ArtistArt offline ["X"];
                  BlacklistImg Written ["X|"]; ArtistArt offline ["X"]]
               (initial_state None) in
  position_of <$> out.2 = [Some (1, 2); Some (2, 2); None; Some (1, 1)] ∧
  out.2 !! 2 = Some (Blacklisted "http://img/fan.png" 1) ∧
  image_index out.1 !! "x|" = Some 0.
Proof. vm_compute. done. Qed.

(** C10. When [handle_blacklist] removes every record of the key's set, the
    set and the cursor are deleted but the last served URL stays.  A second
    call for the key therefore does not answer 404: it adds the same URL to
    the blacklist again, which leaves the blacklist as it is, and answers
    with that URL and 0 records left. *)
Theorem blacklist_again_after_set_emptied :
  ∀ (o1 o2 : WriteOutcome) (a0 : string) (rest rest' : list string)
    (st : State) (url : string) (images : list ImageRecord),
    let k := PyStr.lower a0 in
    let out1 := handle_blacklist o1 (a0 :: rest) st in
    let out2 := handle_blacklist o2 (a0 :: rest') out1.1 in
    current_image_url st !! k = Some url →
    is_placeholder url = false →
    image_cache st !! k = Some images →
    filter (λ img, img_url img ≠ url) images = [] →
    (out1.2 = Blacklisted url 0 ∧
     image_cache out1.1 !! k = None ∧
     image_index out1.1 !! k = None ∧
     current_image_url out1.1 !! k = Some url ∧
     url ∈ IMAGE_BLACKLIST out1.1) ∧
    (out2.2 = Blacklisted url 0 ∧
     status out2.2 = Some 200 ∧
     IMAGE_BLACKLIST out2.1 = IMAGE_BLACKLIST out1.1 ∧
     BLACKLIST_FILE out2.1
       = save_blacklist o2 (IMAGE_BLACKLIST out1.1) (BLACKLIST_FILE out1.1) ∧
     image_cache out2.1 = image_cache out1.1 ∧
     image_index out2.1 = image_index out1.1 ∧
     current_image_url out2.1 = current_image_url out1.1).
Proof.
  intros o1 o2 a0 rest rest' st url images k out1 out2 Hu Hp Hk Hf.
  assert (H1 : out1 =
    ({| IMAGE_BLACKLIST := IMAGE_BLACKLIST st ∪ {[url]};
        BLACKLIST_FILE :=
          save_blacklist o1 (IMAGE_BLACKLIST st ∪ {[url]}) (BLACKLIST_FILE st);
        image_cache := delete k (image_cache st);
        image_index := delete k (image_index st);
        current_image_url := current_image_url st |},
     Blacklisted url 0)).
  { unfold out1, handle_blacklist. fold k. rewrite Hu, Hp, Hk, Hf.
    unfold remaining_of. simpl. by rewrite lookup_delete_eq. }
  unfold out2. rewrite H1. simpl.
  split.
  - rewrite !lookup_delete_eq. repeat split; try done. set_solver.
  - unfold handle_blacklist. fold k. simpl. rewrite Hu, Hp.
    rewrite lookup_delete_eq. unfold remaining_of. simpl.
    rewrite lookup_delete_eq. simpl.
    assert (Hsame : IMAGE_BLACKLIST st ∪ {[url]} ∪ {[url]}
                    = IMAGE_BLACKLIST st ∪ {[url]}).
    { by rewrite <- (assoc_L (∪)), (idemp_L (∪)). }
    rewrite Hsame. done.
Qed.

Lemma blacklist_again_witness :
  let url := "http://img/x.png" in
  let st := (handle_artistart (artist_world (Some url) None 600) ["X"]
               (initial_state None)).1 in
  let r := {| img_data := body_of_size 600; content_type := "image/png";
              img_url := url |} in
  current_image_url st !! PyStr.lower "X|" = Some url ∧
  is_placeholder url = false ∧
  image_cache st !! PyStr.lower "X|" = Some [r] ∧
  filter (λ img, img_url img ≠ url) [r] = [] ∧
  (handle_blacklist Written ["X|"] (handle_blacklist Written ["X|"] st).1).2
    = Blacklisted url 0.
Proof.
  intros url st r.
  assert (Hu : current_image_url st !! PyStr.lower "X|" = Some url)
    by (vm_compute; reflexivity).
  assert (Hp : is_placeholder url = false) by reflexivity.
  assert (Hk : image_cache st !! PyStr.lower "X|" = Some [r])
    by (vm_compute; reflexivity).
  assert (Hf : filter (λ img, img_url img ≠ url) [r] = [])
    by (vm_compute; reflexivity).
  destruct (blacklist_again_after_set_emptied Written Written "X|" [] [] st
              url [r] Hu Hp Hk Hf) as (_ & H2 & _).
  split; [exact Hu|]. split; [exact Hp|]. split; [exact Hk|].
  split; [exact Hf|]. exact H2.
Defined.

(** ** The image fetcher and its size threshold *)

Lemma download_from_complete w urls :
  ∀ i j u r, urls !! j = Some u → fetch w (i + j) u = Some r →
    r ∈ download_from w i urls.
Proof.
  induction urls as [|u0 urls IH]; intros i j u r Hj Hf; [done|].
  destruct j as [|j]; simpl in *.
  - injection Hj as ->. rewrite Nat.add_0_r in Hf. rewrite Hf. left.
  - assert (Hin : r ∈ download_from w (S i) urls).
    { apply (IH (S i) j u r Hj). by replace (S i + j) with (i + S j) by lia. }
    destruct (fetch w i u0); [by right|done].
Qed.

(** Against C8 as it is worded: a body of exactly 500 bytes is not below 500
    bytes, it downloads, and it is rejected all the same. *)
Lemma fetch_rejects_500_bytes :
  let w := artist_world None None 500 in
  let url := "http://img/x.png" in
  urlopen_image w 0 url = Some (body_of_size 500, Some "image/png") ∧
  length (body_of_size 500) = 500 ∧
  fetch w 0 url = None ∧
  ¬ (fetch w 0 url = None ↔ length (body_of_size 500) < 500).
Proof.
  intros w url.
  assert (Hf : fetch w 0 url = None) by (vm_compute; reflexivity).
  assert (Hl : length (body_of_size 500) = 500) by (vm_compute; reflexivity).
  split; [reflexivity|]. split; [exact Hl|]. split; [exact Hf|].
  intros [Hlt _]. specialize (Hlt Hf). rewrite Hl in Hlt. lia.
Qed.

(** C8, as the code has it.  A downloaded body is rejected exactly when it
    has at most 500 bytes; a body of more than 500 bytes is kept with its
    data, its content type ([image/jpeg] when the header is missing) and the
    URL it came from.  A download that raises yields no record.  The batch
    never stops early: its result holds exactly the records of the candidates
    whose fetch succeeded. *)
Theorem fetch_keeps_bodies_over_500_bytes :
  (∀ (w : World) (i : nat) (url : string) (data : list byte)
     (header : option string),
      urlopen_image w i url = Some (data, header) →
      (fetch w i url = None ↔ (length data ≤ 500)%nat) ∧
      (500 < length data →
         fetch w i url =
           Some {| img_data := data;
                   content_type := default "image/jpeg" header;
                   img_url := url |})) ∧
  (∀ (w : World) (i : nat) (url : string),
      urlopen_image w i url = None → fetch w i url = None) ∧
  (∀ (w : World) (image_urls : list string) (r : ImageRecord),
      r ∈ download_all w image_urls ↔
      ∃ j u, image_urls !! j = Some u ∧ fetch w j u = Some r).
Proof.
  split; [|split].
  - intros w i url data header Hopen. unfold fetch. rewrite Hopen.
    destruct (500 <? length data)%nat eqn:Hlen.
    + apply Nat.ltb_lt in Hlen. split; [|done]. split; [done|lia].
    + apply Nat.ltb_ge in Hlen. split; [done|lia].
  - intros w i url Hopen. unfold fetch. by rewrite Hopen.
  - intros w image_urls r. unfold download_all. split.
    + intros Hr. apply download_from_elem in Hr as (j & Hj & Hf). eauto.
    + intros (j & u & Hj & Hf). by apply (download_from_complete w _ 0 j u r).
Qed.

Lemma fetch_threshold_witness :
  let w := artist_world None None 501 in
  let url := "http://img/x.png" in
  urlopen_image w 0 url = Some (body_of_size 501, Some "image/png") ∧
  500 < length (body_of_size 501) ∧
  fetch w 0 url =
    Some {| img_data := body_of_size 501; content_type := "image/png";
            img_url := url |}.
Proof.
  intros w url.
  assert (Hopen : urlopen_image w 0 url
                  = Some (body_of_size 501, Some "image/png")) by reflexivity.
  assert (Hlen : 500 < length (body_of_size 501))
    by (vm_compute; apply Nat.lt_succ_diag_r).
  destruct fetch_keeps_bodies_over_500_bytes as (Hkeep & _ & _).
  destruct (Hkeep w 0 url _ _ Hopen) as [_ Hsome].
  split; [exact Hopen|]. split; [exact Hlen|]. exact (Hsome Hlen).
Defined.

(** ** Duplicates among the candidates *)

Lemma add_unseen_NoDup urls f : NoDup urls → NoDup (add_unseen urls f).
Proof.
  intros Hnd. unfold add_unseen. destruct f as [u|]; [|done].
  destruct (PyStr.nonempty u); [|done]. simpl.
  case_bool_decide as Hin; simpl; [done|].
  apply NoDup_app. split; [done|]. split; [|apply NoDup_singleton].
  intros x Hx Hxu%list_elem_of_singleton. by subst x.
Qed.

Lemma add_first_unseen_NoDup fs :
  ∀ urls, NoDup urls → NoDup (add_first_unseen urls fs).
Proof.
  induction fs as [|f fs IH]; intros urls Hnd; simpl; [done|].
  destruct f as [u|]; [|by apply IH].
  destruct (PyStr.nonempty u); [|by apply IH]. simpl.
  case_bool_decide as Hin; simpl; [by apply IH|].
  apply NoDup_app. split; [done|]. split; [|apply NoDup_singleton].
  intros x Hx Hxu%list_elem_of_singleton. by subst x.
Qed.

Lemma foldl_add_unseen_NoDup fs :
  ∀ urls, NoDup urls → NoDup (foldl add_unseen urls fs).
Proof.
  induction fs as [|f fs IH]; intros urls Hnd; simpl; [done|].
  apply IH. by apply add_unseen_NoDup.
Qed.

Lemma add_track_covers_NoDup tracks :
  ∀ urls, NoDup urls → NoDup (add_track_covers urls tracks).
Proof.
  induction tracks as [|[a|] tracks IH]; intros urls Hnd; simpl; [done| |done].
  apply IH. by apply add_unseen_NoDup.
Qed.

(** The providers that run after the album-art phase add no duplicate. *)
Lemma collect_image_urls_NoDup w artist album :
  NoDup (album_phase w artist album) →
  NoDup (collect_image_urls w artist album).
Proof.
  intros Hnd. unfold collect_image_urls.
  assert (H1 : ∀ terms urls, NoDup urls →
                 NoDup (foldl (deezer_artist_urls w) urls terms)).
  { induction terms as [|t terms IH]; intros urls Hu; simpl; [done|].
    apply IH. unfold deezer_artist_urls.
    destruct (deezer_artist_search w t) as [[|art ?]|]; try done.
    by apply add_first_unseen_NoDup. }
  specialize (H1 (take 2 (search_terms artist album)) _ Hnd).
  set (urls1 := foldl _ _ _) in *.
  assert (H2 : NoDup (deezer_track_urls w artist album urls1)).
  { unfold deezer_track_urls.
    destruct (_ || _); [|done].
    destruct (deezer_track_search w artist); [|done].
    by apply add_track_covers_NoDup. }
  unfold audiodb_artist_urls.
  destruct (audiodb_artist_search w artist) as [[|art ?]|]; try done.
  by apply foldl_add_unseen_NoDup.
Qed.

(** Without an album, or with a soundtrack hint as album, the candidates are
    free of duplicates, before and after the blacklist filter. *)
Lemma candidates_NoDup_without_album_phase w artist album blacklist :
  PyStr.nonempty album && negb (is_soundtrack_search album) = false →
  NoDup (filter_blacklisted blacklist (collect_image_urls w artist album)).
Proof.
  intros Hskip. apply NoDup_filter, collect_image_urls_NoDup.
  unfold album_phase. rewrite Hskip. apply NoDup_nil_2.
Qed.

(** C2 at its failing input.  For the artist ["X"] and the album ["Y"], with
    TheAudioDB listing one cover both as [strAlbumThumb] and as
    [strAlbumThumbHQ], the album-art phase appends the cover twice: the
    candidate list handed to the fetcher holds it twice, and so does the set
    that gets cached. *)
Theorem album_covers_are_not_deduplicated :
  let cover := "http://img/cover.jpg" in
  let w := same_cover_world cover in
  let candidates :=
    filter_blacklisted (IMAGE_BLACKLIST (initial_state None))
      (collect_image_urls w (artist_of "X") (album_of ["Y"])) in
  let out := handle_artistart w ["X"; "Y"] (initial_state None) in
  candidates = [cover; cover] ∧
  ¬ NoDup candidates ∧
  img_url <$> default [] (image_cache out.1 !! "x|y") = [cover; cover] ∧
  position_of out.2 = Some (1, 2).
Proof.
  intros cover w candidates out.
  assert (Hc : candidates = [cover; cover]) by (vm_compute; reflexivity).
  split; [exact Hc|]. split.
  - rewrite Hc. intros Hnd. apply NoDup_cons in Hnd as [Hnotin _].
    apply Hnotin. left.
  - split; vm_compute; reflexivity.
Qed.

(** * Further properties of the cache *)

#[local] Set Warnings "-clear-no-such-hyp".

(** ** What the two handlers do to the cached sets *)

(** [handle_artistart] leaves every set as it is, except that a miss may
    store the downloads of the filtered candidates under the key. *)
Lemma handle_artistart_cache_lookup w a0 rest st k' images' :
  let k := cache_key_of (artist_of a0) (album_of rest) in
  image_cache (handle_artistart w (a0 :: rest) st).1 !! k' = Some images' →
  image_cache st !! k' = Some images' ∨
  (k' = k ∧ image_cache st !! k = None ∧
   images' = download_all w
               (filter_blacklisted (IMAGE_BLACKLIST st)
                  (collect_image_urls w (artist_of a0) (album_of rest)))).
Proof.
  intros k. unfold handle_artistart. fold k.
  destruct (image_cache st !! k) eqn:Hk.
  { rewrite serve_cache. by left. }
  destruct (filter_blacklisted _ _) as [|u us] eqn:Hc; [by left|].
  destruct (download_all w (u :: us)) as [|r rs] eqn:Hd; [by left|].
  rewrite serve_cache. simpl.
  destruct (decide (k = k')) as [<-|Hne].
  - rewrite lookup_insert_eq. intros [= <-]. by right.
  - rewrite lookup_insert_ne by done. by left.
Qed.

(** [handle_blacklist] only ever takes records out of a set. *)
Lemma handle_blacklist_cache_lookup o args st k' images' :
  image_cache (handle_blacklist o args st).1 !! k' = Some images' →
  ∃ images, image_cache st !! k' = Some images ∧ images' `sublist_of` images.
Proof.
  unfold handle_blacklist.
  destruct args as [|a0 rest]; [by eauto|].
  set (k := PyStr.lower a0).
  destruct (current_image_url st !! k) as [url|]; [|by eauto].
  destruct (is_placeholder url); [by eauto|].
  destruct (image_cache st !! k) as [images|] eqn:Hk; [|by eauto].
  assert (Hins : ∀ kept,
    kept = filter (λ img, img_url img ≠ url) images →
    <[k := kept]> (image_cache st) !! k' = Some images' →
    ∃ images0, image_cache st !! k' = Some images0 ∧
               images' `sublist_of` images0).
  { intros kept -> Hl. destruct (decide (k = k')) as [<-|Hne].
    - rewrite lookup_insert_eq in Hl. injection Hl as <-.
      exists images. split; [done|]. apply sublist_filter.
    - rewrite lookup_insert_ne in Hl by done. eauto. }
  destruct (filter (λ img, img_url img ≠ url) images) as [|r kept] eqn:Hf.
  - simpl. intros Hl. destruct (decide (k = k')) as [<-|Hne].
    + by rewrite lookup_delete_eq in Hl.
    + rewrite lookup_delete_ne in Hl by done. eauto.
  - destruct (image_index st !! k); simpl; by apply Hins.
Qed.

(** ** The lookups of the handlers do not fail *)

Lemma serve_in_range k st images idx :
  image_cache st !! k = Some images →
  image_index st !! k = Some idx →
  idx < length images →
  ∃ r, images !! idx = Some r ∧
       (serve k st).2 = image_answer r (idx + 1) (length images) k.
Proof.
  intros Hk Hi Hlt. destruct (lookup_lt_is_Some_2 images idx Hlt) as [r Hr].
  exists r. split; [done|]. by rewrite (serve_hit k st images idx r).
Qed.

Lemma image_answer_no_lookup_error r position total k :
  image_answer r position total k ≠ Raised KeyError ∧
  image_answer r position total k ≠ Raised IndexError.
Proof. by destruct (image_answer_cases r position total k) as [->| ->]. Qed.

Lemma step_lookups_succeed rq st :
  cursor_in_range st →
  (step rq st).2 ≠ Raised KeyError ∧ (step rq st).2 ≠ Raised IndexError.
Proof.
  intros Hc. destruct rq as [w args|o args]; simpl.
  - unfold handle_artistart. destruct args as [|a0 rest]; [done|].
    set (k := cache_key_of _ _).
    destruct (image_cache st !! k) as [images|] eqn:Hk.
    { destruct (Hc k images Hk) as (idx & Hi & Hlt).
      destruct (serve_in_range k st images idx Hk Hi Hlt) as (r & _ & ->).
      apply image_answer_no_lookup_error. }
    destruct (filter_blacklisted _ _) as [|u us] eqn:Hf; [done|].
    destruct (download_all w (u :: us)) as [|r rs] eqn:Hd; [done|].
    set (st1 := {| IMAGE_BLACKLIST := _ |}).
    assert (H1 : image_cache st1 !! k = Some (r :: rs))
      by (subst st1; simpl; by rewrite lookup_insert_eq).
    assert (H2 : image_index st1 !! k = Some 0)
      by (subst st1; simpl; by rewrite lookup_insert_eq).
    assert (H3 : 0 < length (r :: rs)) by (simpl; lia).
    destruct (serve_in_range k st1 (r :: rs) 0 H1 H2 H3) as (r0 & _ & ->).
    apply image_answer_no_lookup_error.
  - unfold handle_blacklist. destruct args as [|a0 rest]; [done|].
    set (k := PyStr.lower a0).
    destruct (current_image_url st !! k) as [url|]; [|done].
    destruct (is_placeholder url); [done|].
    destruct (image_cache st !! k) as [images|] eqn:Hk; [|done].
    destruct (filter _ images); [done|].
    destruct (Hc k images Hk) as (idx & -> & _). done.
Qed.

Lemma reachable_step_lookups_succeed st rq :
  reachable st →
  (step rq st).2 ≠ Raised KeyError ∧ (step rq st).2 ≠ Raised IndexError.
Proof. intros Hst. by apply step_lookups_succeed, reachable_cursor_in_range. Qed.

(** X1. In a reachable state the lookups of the two handlers never fail:
    no request of any sequence ends in a [KeyError] (lines 348, 349, 408) or
    an [IndexError] (line 350), also when it follows a blacklisting that
    shrank or deleted the set of its key. *)
Theorem reachable_lookups_never_fail :
  ∀ (st : State) (rqs : list Request) (r : Response),
    reachable st → r ∈ (run rqs st).2 →
    r ≠ Raised KeyError ∧ r ≠ Raised IndexError.
Proof.
  intros st rqs. revert st.
  induction rqs as [|rq rqs IH]; intros st r Hst Hr; simpl in Hr.
  - by apply not_elem_of_nil in Hr.
  - pose proof (reachable_step_lookups_succeed st rq Hst) as H1.
    pose proof (reachable_step rq st Hst) as H2.
    destruct (step rq st) as [st1 r1]. simpl in H1, H2.
    specialize (IH st1 r H2).
    destruct (run rqs st1) as [st2 rs]. simpl in *.
    apply elem_of_cons in Hr as [->|Hr]; [done|by apply IH].
Qed.

Lemma reachable_lookups_witness :
  let w := artist_world (Some "http://img/x.png") (Some "http://img/fan.png") 600 in
  let st := (run [ArtistArt w ["X"]; BlacklistImg Written ["x|"]]
               (initial_state None)).1 in
  let rqs := [ArtistArt offline ["X"]; BlacklistImg OpenFailed ["x|"];
              ArtistArt offline ["X"]] in
  reachable st ∧
  status <$> (run rqs st).2 = [Some 200; Some 200; Some 204] ∧
  ∀ r, r ∈ (run rqs st).2 → r ≠ Raised KeyError ∧ r ≠ Raised IndexError.
Proof.
  intros w st rqs.
  assert (Hst : reachable st).
  { apply (run_reachable _ (initial_state None)). apply reachable_init. }
  split; [exact Hst|]. split; [vm_compute; reflexivity|].
  intros r. exact (reachable_lookups_never_fail st rqs r Hst).
Defined.

(** ** Which keys have a set, a cursor and a last served URL *)

Lemma serve_domains_agree k st :
  domains_agree st → domains_agree (serve k st).1.
Proof.
  intros [Hd Hs]. unfold serve.
  destruct (image_cache st !! k) as [images|] eqn:Hk; [|done].
  destruct (image_index st !! k) as [idx|] eqn:Hi; [|done].
  destruct (images !! idx) as [r|]; [|done].
  assert (Hin : k ∈ dom (image_cache st)) by (apply elem_of_dom; eauto).
  split; simpl; rewrite !dom_insert_L; set_solver.
Qed.

Lemma handle_artistart_domains_agree w args st :
  domains_agree st → domains_agree (handle_artistart w args st).1.
Proof.
  intros Hst. destruct args as [|a0 rest]; [done|].
  destruct (image_cache st !! cache_key_of (artist_of a0) (album_of rest))
    as [images|] eqn:Hk.
  { rewrite (handle_artistart_hit _ _ _ _ images Hk).
    by apply serve_domains_agree. }
  destruct (filter_blacklisted (IMAGE_BLACKLIST st)
              (collect_image_urls w (artist_of a0) (album_of rest)))
    as [|u us] eqn:Hf.
  { unfold handle_artistart. by rewrite Hk, Hf. }
  destruct (download_all w (u :: us)) as [|r rs] eqn:Hd.
  { unfold handle_artistart. by rewrite Hk, Hf, Hd. }
  rewrite (handle_artistart_miss_served w a0 rest st u us r rs Hk Hf Hd).
  destruct Hst as [Hd1 Hd2].
  split; simpl; rewrite !dom_insert_L; set_solver.
Qed.

Lemma handle_blacklist_domains_agree o args st :
  domains_agree st → domains_agree (handle_blacklist o args st).1.
Proof.
  intros [Hd Hs]. unfold handle_blacklist.
  destruct args as [|a0 rest]; [done|].
  set (k := PyStr.lower a0).
  destruct (current_image_url st !! k) as [url|]; [|done].
  destruct (is_placeholder url); [done|].
  destruct (image_cache st !! k) as [images|] eqn:Hk; [|done].
  assert (Hin : k ∈ dom (image_cache st)) by (apply elem_of_dom; eauto).
  destruct (filter _ images) as [|r kept].
  - split; simpl; rewrite !dom_delete_L; set_solver.
  - destruct (image_index st !! k) as [idx|] eqn:Hi.
    + split; simpl; rewrite !dom_insert_L; set_solver.
    + rewrite <- Hd in Hin. apply elem_of_dom in Hin as [idx Hidx]. congruence.
Qed.

(** X2. In every reachable state the keys with a cursor are exactly the keys
    with a set, and every key with a set has a last served URL: a set is
    never stored without being served once. *)
Theorem reachable_domains_agree :
  ∀ st : State,
    reachable st →
    dom (image_index st) = dom (image_cache st) ∧
    dom (image_cache st) ⊆ dom (current_image_url st).
Proof.
  induction 1 as [file|rq st _ IH].
  - split; simpl; [by rewrite !dom_empty_L|set_solver].
  - destruct rq as [w args|o args]; simpl.
    + by apply handle_artistart_domains_agree.
    + by apply handle_blacklist_domains_agree.
Qed.

Lemma reachable_domains_witness :
  let w := artist_world (Some "http://img/x.png") (Some "http://img/fan.png") 600 in
  let st := (run [ArtistArt w ["X"]; BlacklistImg Written ["x|"]]
               (initial_state None)).1 in
  reachable st ∧
  dom (image_index st) = dom (image_cache st) ∧
  dom (image_cache st) ⊆ dom (current_image_url st).
Proof.
  intros w st.
  assert (Hst : reachable st).
  { apply (run_reachable _ (initial_state None)). apply reachable_init. }
  split; [exact Hst|]. exact (reachable_domains_agree st Hst).
Defined.

(** ** Each handler works on one key *)

Lemma serve_frame k st k' :
  k' ≠ k →
  image_cache (serve k st).1 !! k' = image_cache st !! k' ∧
  image_index (serve k st).1 !! k' = image_index st !! k' ∧
  current_image_url (serve k st).1 !! k' = current_image_url st !! k'.
Proof.
  intros Hne. unfold serve.
  destruct (image_cache st !! k) as [images|]; [|done].
  destruct (image_index st !! k) as [idx|]; [|done].
  destruct (images !! idx) as [r|]; [|done].
  simpl. by rewrite !lookup_insert_ne.
Qed.

Lemma serve_file k st : BLACKLIST_FILE (serve k st).1 = BLACKLIST_FILE st.
Proof.
  unfold serve.
  destruct (image_cache st !! k) as [images|]; [|done].
  destruct (image_index st !! k) as [idx|]; [|done].
  by destruct (images !! idx).
Qed.

Lemma handle_artistart_file w args st :
  BLACKLIST_FILE (handle_artistart w args st).1 = BLACKLIST_FILE st.
Proof.
  unfold handle_artistart. destruct args as [|a0 rest]; [done|].
  destruct (image_cache st !! _); [apply serve_file|].
  destruct (filter_blacklisted _ _) as [|u us]; [done|].
  destruct (download_all w (u :: us)); [done|].
  by rewrite serve_file.
Qed.

(** X3. A call of [handle_artistart] leaves the set, the cursor and the last
    served URL of every other key as they are, and never touches the
    blacklist or its file.  A call of [handle_blacklist] leaves the set and
    the cursor of every other key as they are, and no last served URL is ever
    changed or cleared by it: a URL blacklisted through one key stays in the
    sets of the other keys. *)
Theorem handlers_work_on_one_key :
  (∀ (w : World) (a0 : string) (rest : list string) (st : State) (k' : string),
      k' ≠ cache_key_of (artist_of a0) (album_of rest) →
      let st' := (handle_artistart w (a0 :: rest) st).1 in
      image_cache st' !! k' = image_cache st !! k' ∧
      image_index st' !! k' = image_index st !! k' ∧
      current_image_url st' !! k' = current_image_url st !! k' ∧
      IMAGE_BLACKLIST st' = IMAGE_BLACKLIST st ∧
      BLACKLIST_FILE st' = BLACKLIST_FILE st) ∧
  (∀ (o : WriteOutcome) (a0 : string) (rest : list string) (st : State)
     (k' : string),
      k' ≠ PyStr.lower a0 →
      let st' := (handle_blacklist o (a0 :: rest) st).1 in
      image_cache st' !! k' = image_cache st !! k' ∧
      image_index st' !! k' = image_index st !! k' ∧
      current_image_url st' = current_image_url st).
Proof.
  split.
  - intros w a0 rest st k' Hne st'.
    split_and!; [| | |apply handle_artistart_blacklist|apply handle_artistart_file].
    all: unfold st', handle_artistart; set (k := cache_key_of _ _) in *.
    all: destruct (image_cache st !! k); [by apply serve_frame|].
    all: destruct (filter_blacklisted _ _) as [|u us]; [done|].
    all: destruct (download_all w (u :: us)) as [|r rs]; [done|].
    all: set (st1 := {| IMAGE_BLACKLIST := _ |}).
    all: destruct (serve_frame k st1 k' Hne) as (H1 & H2 & H3).
    + rewrite H1. subst st1. simpl. by rewrite lookup_insert_ne.
    + rewrite H2. subst st1. simpl. by rewrite lookup_insert_ne.
    + rewrite H3. done.
  - intros o a0 rest st k' Hne st'. unfold st', handle_blacklist.
    set (k := PyStr.lower a0) in *.
    destruct (current_image_url st !! k) as [url|]; [|done].
    destruct (is_placeholder url); [done|].
    destruct (image_cache st !! k) as [images|]; [|done].
    destruct (filter _ images) as [|r kept].
    + simpl. by rewrite !lookup_delete_ne.
    + destruct (image_index st !! k); simpl; by rewrite !lookup_insert_ne.
Qed.

Lemma one_key_witness :
  let w := artist_world (Some "http://img/x.png") None 600 in
  let st := (run [ArtistArt w ["X"]; ArtistArt w ["Y"]] (initial_state None)).1 in
  "y|" ≠ PyStr.lower "x|" ∧
  length <$> image_cache (handle_blacklist Written ["x|"] st).1 !! "x|" = None ∧
  length <$> image_cache (handle_blacklist Written ["x|"] st).1 !! "y|" = Some 1.
Proof.
  intros w st.
  assert (Hne : "y|" ≠ PyStr.lower "x|") by discriminate.
  destruct handlers_work_on_one_key as [_ Hb].
  destruct (Hb Written "x|" [] st "y|" Hne) as (Hc & _ & _).
  split; [exact Hne|]. split; [vm_compute; reflexivity|].
  rewrite Hc. vm_compute. reflexivity.
Defined.

(** ** Every cached body is larger than 500 bytes *)

Lemma step_bodies_over_500 rq st :
  bodies_over_500 st → bodies_over_500 (step rq st).1.
Proof.
  intros Hst k images r Hk Hr. destruct rq as [w args|o args]; simpl in Hk.
  - destruct args as [|a0 rest]; [by eapply Hst|].
    apply handle_artistart_cache_lookup in Hk as [Hk|(_ & _ & ->)].
    + by eapply Hst.
    + apply download_from_elem in Hr as (j & _ & Hf).
      by apply fetch_Some in Hf as (_ & _ & Hlen & _).
  - apply handle_blacklist_cache_lookup in Hk as (images0 & Hk0 & Hsub).
    eapply Hst; [done|]. by eapply elem_of_sublist.
Qed.

(** X4. In every reachable state each record of each cached set has a body
    of more than 500 bytes. *)
Theorem reachable_bodies_over_500 :
  ∀ (st : State) (k : string) (images : list ImageRecord) (r : ImageRecord),
    reachable st →
    image_cache st !! k = Some images → r ∈ images →
    500 < length (img_data r).
Proof.
  intros st k images r Hst. revert k images r.
  induction Hst as [file|rq st _ IH].
  - intros k images r Hk. simpl in Hk. by rewrite lookup_empty in Hk.
  - by apply step_bodies_over_500.
Qed.

Lemma reachable_bodies_witness :
  let w := artist_world (Some "http://img/x.png") None 600 in
  let st := (handle_artistart w ["X"] (initial_state None)).1 in
  let r := {| img_data := body_of_size 600; content_type := "image/png";
              img_url := "http://img/x.png" |} in
  reachable st ∧ image_cache st !! "x|" = Some [r] ∧ r ∈ [r] ∧
  500 < length (img_data r).
Proof.
  intros w st r.
  assert (Hst : reachable st)
    by exact (reachable_step (ArtistArt w ["X"]) _ (reachable_init None)).
  assert (Hk : image_cache st !! "x|" = Some [r]) by (vm_compute; reflexivity).
  assert (Hr : r ∈ [r]) by (apply list_elem_of_singleton; reflexivity).
  split; [exact Hst|]. split; [exact Hk|]. split; [exact Hr|].
  exact (reachable_bodies_over_500 st "x|" [r] r Hst Hk Hr).
Defined.

(** ** From a served image to its blacklisting *)

Lemma lower_char_idemp c : PyStr.lower_char (PyStr.lower_char c) = PyStr.lower_char c.
Proof. destruct c as [[] [] [] [] [] [] [] []]; reflexivity. Qed.

Lemma lower_idemp s : PyStr.lower (PyStr.lower s) = PyStr.lower s.
Proof.
  induction s as [|c s IH]; simpl; [done|]. by rewrite lower_char_idemp, IH.
Qed.

Lemma lower_append s t : PyStr.lower (s +:+ t) = PyStr.lower s +:+ PyStr.lower t.
Proof.
  induction s as [|c s IH]; [done|].
  rewrite append_String. simpl. by rewrite IH, append_String.
Qed.

(** The key sent in [X-Cache-Key] is its own lower-case form. *)
Lemma cache_key_lower artist album :
  PyStr.lower (cache_key_of artist album) = cache_key_of artist album.
Proof.
  unfold cache_key_of. by rewrite !lower_append, !lower_idemp.
Qed.

Lemma serve_Image_inv k st st1 ct p t k0 body :
  serve k st = (st1, Image ct p t k0 body) →
  k0 = k ∧
  ∃ images idx r,
    image_cache st1 !! k = Some images ∧
    images !! idx = Some r ∧
    p = idx + 1 ∧ t = length images ∧
    image_index st1 !! k = Some ((idx + 1) mod t) ∧
    current_image_url st1 !! k = Some (img_url r) ∧
    ct = content_type r ∧ body = img_data r.
Proof.
  unfold serve.
  destruct (image_cache st !! k) as [images|] eqn:Hk; [|done].
  destruct (image_index st !! k) as [idx|] eqn:Hi; [|done].
  destruct (images !! idx) as [r|] eqn:Hr; [|done].
  unfold image_answer. destruct (_ && _); [|done].
  intros [= <- <- <- <- <- <-]. split; [done|].
  exists images, idx, r. simpl. rewrite !lookup_insert_eq. done.
Qed.

Lemma handle_artistart_Image_inv w args st st1 ct p t k body :
  handle_artistart w args st = (st1, Image ct p t k body) →
  (∃ a0 rest, args = a0 :: rest ∧ k = cache_key_of (artist_of a0) (album_of rest)) ∧
  ∃ images idx r,
    image_cache st1 !! k = Some images ∧
    images !! idx = Some r ∧
    p = idx + 1 ∧ t = length images ∧
    image_index st1 !! k = Some ((idx + 1) mod t) ∧
    current_image_url st1 !! k = Some (img_url r) ∧
    ct = content_type r ∧ body = img_data r.
Proof.
  unfold handle_artistart. destruct args as [|a0 rest]; [done|].
  set (k1 := cache_key_of _ _).
  assert (Hserve : ∀ st0, serve k1 st0 = (st1, Image ct p t k body) →
    (∃ a1 rest1, a0 :: rest = a1 :: rest1 ∧
                 k = cache_key_of (artist_of a1) (album_of rest1)) ∧
    ∃ images idx r,
      image_cache st1 !! k = Some images ∧ images !! idx = Some r ∧
      p = idx + 1 ∧ t = length images ∧
      image_index st1 !! k = Some ((idx + 1) mod t) ∧
      current_image_url st1 !! k = Some (img_url r) ∧
      ct = content_type r ∧ body = img_data r).
  { intros st0 Hs. apply serve_Image_inv in Hs as [-> Hs]. split; [|done].
    by exists a0, rest. }
  destruct (image_cache st !! k1); [by apply Hserve|].
  destruct (filter_blacklisted _ _) as [|u us]; [done|].
  destruct (download_all w (u :: us)) as [|r rs]; [done|].
  by apply Hserve.
Qed.

(** X5. After a call that answered with an image, position [p] of [t], the
    key [k] of [X-Cache-Key], the set of [k] has [t] records, the record at
    place [p] is the one whose content type and body were sent, and the last
    served URL of [k] is the URL of that very record.  [handle_blacklist]
    with [k] therefore acts on the image on screen: if its URL is a
    placeholder the call changes nothing and reports all [t] records;
    otherwise it blacklists that URL, reports the records of other URLs,
    fewer than [t], and no record of the set carries the URL any more. *)
Theorem served_image_can_be_blacklisted :
  ∀ (w : World) (args : list string) (st st1 : State) (ct : string)
    (p t : nat) (k : string) (body : list byte) (o : WriteOutcome)
    (rest : list string),
    handle_artistart w args st = (st1, Image ct p t k body) →
    let out := handle_blacklist o (k :: rest) st1 in
    ∃ images r,
      image_cache st1 !! k = Some images ∧
      t = length images ∧
      (1 ≤ p)%nat ∧
      images !! (p - 1) = Some r ∧
      ct = content_type r ∧
      body = img_data r ∧
      current_image_url st1 !! k = Some (img_url r) ∧
      (is_placeholder (img_url r) = true → out = (st1, CannotBlacklist t)) ∧
      (is_placeholder (img_url r) = false →
         let kept := filter (λ img, img_url img ≠ img_url r) images in
         out.2 = Blacklisted (img_url r) (length kept) ∧
         length kept < t ∧
         remaining_of k out.1 = length kept ∧
         img_url r ∈ IMAGE_BLACKLIST out.1 ∧
         (kept = [] → image_cache out.1 !! k = None) ∧
         (kept ≠ [] → image_cache out.1 !! k = Some kept) ∧
         ∀ x, x ∈ kept → img_url x ≠ img_url r).
Proof.
  intros w args st st1 ct p t k body o rest Hserved out.
  apply handle_artistart_Image_inv in Hserved
    as ((a0 & rest0 & _ & Hkey) & images & idx & r & Hk & Hr & Hpos & Ht & Hi
        & Hu & Hct & Hbody).
  assert (Hlow : PyStr.lower k = k) by (rewrite Hkey; apply cache_key_lower).
  exists images, r.
  split; [done|]. split; [done|]. split; [lia|].
  split; [by rewrite Hpos, Nat.add_sub|].
  split; [done|]. split; [done|]. split; [done|].
  unfold out, handle_blacklist. rewrite Hlow, Hu.
  split; intros Hp; rewrite Hp.
  { unfold remaining_of. by rewrite Hk, Ht. }
  rewrite Hk. cbv zeta.
  set (kept := filter (λ img, img_url img ≠ img_url r) images).
  assert (Hlt : length kept < t).
  { rewrite Ht. apply (length_filter_lt _ _ r).
    - by eapply list_elem_of_lookup_2.
    - by intros Hne. }
  assert (Hout : ∀ x, x ∈ kept → img_url x ≠ img_url r).
  { intros x Hx. by apply list_elem_of_filter in Hx as [Hx _]. }
  destruct kept as [|r1 kept'] eqn:Hf.
  - simpl. unfold remaining_of. simpl. rewrite !lookup_delete_eq.
    split_and!; try done; try lia; set_solver.
  - rewrite Hi. simpl. unfold remaining_of. simpl.
    rewrite !lookup_insert_eq.
    split_and!; try done; set_solver.
Qed.

Lemma served_image_witness :
  let w := artist_world (Some "http://img/x.png") (Some "http://img/fan.png") 600 in
  let st := (handle_artistart w ["X"] (initial_state None)).1 in
  let out0 := handle_artistart offline [" X "] st in
  out0 = (out0.1, Image "image/png" 2 2 "x|" (body_of_size 600)) ∧
  current_image_url out0.1 !! "x|" = Some "http://img/fan.png" ∧
  (handle_blacklist Written ["x|"] out0.1).2 = Blacklisted "http://img/fan.png" 1.
Proof.
  intros w st out0.
  assert (H0 : out0 = (out0.1, Image "image/png" 2 2 "x|" (body_of_size 600)))
    by (vm_compute; reflexivity).
  destruct (served_image_can_be_blacklisted offline [" X "] st
              out0.1 _ _ _ _ _ Written [] H0)
    as (images & r & Hk & _ & _ & Hr & _ & _ & Hu & _ & Hb).
  assert (Hurl : img_url r = "http://img/fan.png").
  { vm_compute in Hk. injection Hk as <-. vm_compute in Hr.
    by injection Hr as <-. }
  split; [exact H0|]. split; [by rewrite Hu, Hurl|].
  rewrite Hurl in Hb. destruct (Hb eq_refl) as (Hresp & _ & Hn & _).
  rewrite Hresp. f_equal. rewrite <- Hn. vm_compute. reflexivity.
Defined.

(** ** A blacklisted URL does not come back under its key *)

Lemma step_url_kept_out k url rq st :
  url_kept_out k url st → url_kept_out k url (step rq st).1.
Proof.
  intros [Hin Hout]. split.
  { by apply step_blacklist_mono. }
  intros images r Hk Hr. destruct rq as [w args|o args]; simpl in Hk.
  - destruct args as [|a0 rest]; [by eapply Hout|].
    apply handle_artistart_cache_lookup in Hk as [Hk|(_ & _ & ->)].
    + by eapply Hout.
    + apply download_from_elem in Hr as (j & Hj & _).
      apply list_elem_of_lookup_2, filter_blacklisted_elem in Hj as [Hnot _].
      by intros Heq; rewrite Heq in Hnot.
  - apply handle_blacklist_cache_lookup in Hk as (images0 & Hk0 & Hsub).
    eapply Hout; [done|]. by eapply elem_of_sublist.
Qed.

Lemma run_url_kept_out k url rqs :
  ∀ st, url_kept_out k url st → url_kept_out k url (run rqs st).1.
Proof.
  induction rqs as [|rq rqs IH]; intros st Hst; simpl; [done|].
  pose proof (step_url_kept_out k url rq st Hst) as H1.
  destruct (step rq st) as [st1 r]. specialize (IH st1 H1).
  by destruct (run rqs st1).
Qed.

(** X6. Once [handle_blacklist] has blacklisted the last served URL of a key,
    no later sequence of requests brings a record with that URL back into the
    set of that key: not by a cache hit, and not by fetching the key again
    after its set was emptied. *)
Theorem blacklisted_url_stays_out_of_its_key :
  ∀ (o : WriteOutcome) (a0 : string) (rest : list string) (st : State)
    (url : string) (rqs : list Request) (images : list ImageRecord)
    (r : ImageRecord),
    current_image_url st !! PyStr.lower a0 = Some url →
    is_placeholder url = false →
    let st1 := (handle_blacklist o (a0 :: rest) st).1 in
    image_cache (run rqs st1).1 !! PyStr.lower a0 = Some images →
    r ∈ images →
    img_url r ≠ url ∧ url ∈ IMAGE_BLACKLIST (run rqs st1).1.
Proof.
  intros o a0 rest st url rqs images r Hu Hp st1 Hk Hr.
  assert (H1 : url_kept_out (PyStr.lower a0) url st1).
  { unfold st1, handle_blacklist. rewrite Hu, Hp.
    set (k := PyStr.lower a0).
    destruct (image_cache st !! k) as [images0|] eqn:Hk0.
    { assert (Hout : ∀ x, x ∈ filter (λ img, img_url img ≠ url) images0 →
                          img_url x ≠ url).
      { intros x Hx. by apply list_elem_of_filter in Hx as [Hx _]. }
      destruct (filter (λ img, img_url img ≠ url) images0) as [|r1 kept].
      - split; simpl; [set_solver|].
        intros ? ?. by rewrite lookup_delete_eq.
      - destruct (image_index st !! k); (split; simpl; [set_solver|]);
          intros ? x; rewrite lookup_insert_eq; intros [= <-]; apply Hout. }
    split; simpl; [set_solver|]. intros ? ?. by rewrite Hk0. }
  destruct (run_url_kept_out _ _ rqs st1 H1) as [Hin Hout].
  split; [by eapply Hout|done].
Qed.

Lemma blacklisted_url_witness :
  let w := artist_world (Some "http://img/x.png") (Some "http://img/fan.png") 600 in
  let st := (handle_artistart w ["X"] (initial_state None)).1 in
  let st1 := (handle_blacklist Written ["x|"] st).1 in
  let rqs := [BlacklistImg Written ["x|"]; ArtistArt w ["X"]] in
  let r := {| img_data := body_of_size 600; content_type := "image/png";
              img_url := "http://img/fan.png" |} in
  current_image_url st !! PyStr.lower "x|" = Some "http://img/x.png" ∧
  is_placeholder "http://img/x.png" = false ∧
  image_cache (run rqs st1).1 !! PyStr.lower "x|" = Some [r] ∧
  r ∈ [r] ∧
  img_url r ≠ "http://img/x.png".
Proof.
  intros w st st1 rqs r.
  assert (Hu : current_image_url st !! PyStr.lower "x|" = Some "http://img/x.png")
    by (vm_compute; reflexivity).
  assert (Hp : is_placeholder "http://img/x.png" = false) by reflexivity.
  assert (Hk : image_cache (run rqs st1).1 !! PyStr.lower "x|" = Some [r])
    by (vm_compute; reflexivity).
  assert (Hr : r ∈ [r]) by (apply list_elem_of_singleton; reflexivity).
  split; [exact Hu|]. split; [exact Hp|]. split; [exact Hk|]. split; [exact Hr|].
  exact (proj1 (blacklisted_url_stays_out_of_its_key Written "x|" [] st
                  "http://img/x.png" rqs [r] r Hu Hp Hk Hr)).
Defined.

(** ** The rotation order is the candidate order *)

Lemma download_from_sublist w urls :
  ∀ i, img_url <$> download_from w i urls `sublist_of` urls.
Proof.
  induction urls as [|u urls IH]; intros i; simpl; [constructor|].
  destruct (fetch w i u) as [r|] eqn:Hf.
  - apply fetch_Some in Hf as (_ & _ & _ & _ & <-).
    rewrite fmap_cons. apply sublist_skip, IH.
  - apply sublist_cons, IH.
Qed.

(** X7. The set created by a miss lists its records in the order in which
    the providers contributed their URLs: the URLs of the records form a
    subsequence of the collected candidates.  So the set is never larger
    than the candidate list, and when the album-art phase contributed no
    duplicate, no URL occurs twice in the rotation. *)
Theorem created_set_keeps_candidate_order :
  ∀ (w : World) (a0 : string) (rest : list string) (st : State)
    (images : list ImageRecord),
    let k := cache_key_of (artist_of a0) (album_of rest) in
    let collected := collect_image_urls w (artist_of a0) (album_of rest) in
    image_cache st !! k = None →
    image_cache (handle_artistart w (a0 :: rest) st).1 !! k = Some images →
    img_url <$> images `sublist_of` collected ∧
    (length images ≤ length collected)%nat ∧
    (NoDup (album_phase w (artist_of a0) (album_of rest)) →
       NoDup (img_url <$> images)).
Proof.
  intros w a0 rest st images k collected Hk Hcreated.
  assert (Hsub : img_url <$> images `sublist_of` collected).
  { rewrite (created_set_from_candidates w a0 rest st images Hk Hcreated).
    etrans; [apply download_from_sublist|]. apply sublist_filter. }
  split; [done|]. split.
  - apply sublist_length in Hsub. by rewrite length_fmap in Hsub.
  - intros Hnd. refine (sublist_NoDup _ _ _ Hsub).
    by apply collect_image_urls_NoDup.
Qed.

Lemma candidate_order_witness :
  let w := artist_world (Some "http://img/x.png") (Some "http://img/fan.png") 600 in
  let st := initial_state (Some ["http://img/x.png"]) in
  let r := {| img_data := body_of_size 600; content_type := "image/png";
              img_url := "http://img/fan.png" |} in
  image_cache st !! "x|" = None ∧
  image_cache (handle_artistart w ["X"] st).1 !! "x|" = Some [r] ∧
  img_url <$> [r] `sublist_of` ["http://img/x.png"; "http://img/fan.png"].
Proof.
  intros w st r.
  assert (Hk : image_cache st !! "x|" = None) by reflexivity.
  assert (Hc : image_cache (handle_artistart w ["X"] st).1 !! "x|" = Some [r])
    by (vm_compute; reflexivity).
  split; [exact Hk|]. split; [exact Hc|].
  exact (proj1 (created_set_keeps_candidate_order w "X" [] st [r] Hk Hc)).
Defined.

(** ** The blacklist file follows the blacklist *)

Lemma step_file_in_sync rq st :
  (∀ o args, rq = BlacklistImg o args → o = Written) →
  file_in_sync st → file_in_sync (step rq st).1.
Proof.
  unfold file_in_sync. intros Hw Hst. destruct rq as [w args|o args]; simpl.
  - by rewrite handle_artistart_file, handle_artistart_blacklist.
  - rewrite (Hw o args eq_refl). unfold handle_blacklist.
    destruct args as [|a0 rest]; [done|].
    destruct (current_image_url st !! PyStr.lower a0) as [url|]; [|done].
    destruct (is_placeholder url); [done|].
    destruct (image_cache st !! PyStr.lower a0) as [images|];
      [|apply load_saved_blacklist].
    destruct (filter _ images); [apply load_saved_blacklist|].
    destruct (image_index st !! PyStr.lower a0); apply load_saved_blacklist.
Qed.

Lemma run_file_in_sync rqs :
  ∀ st, writes_succeed rqs → file_in_sync st → file_in_sync (run rqs st).1.
Proof.
  induction rqs as [|rq rqs IH]; intros st Hw Hst; simpl; [done|].
  assert (H1 : file_in_sync (step rq st).1).
  { apply step_file_in_sync; [|done]. intros o args ->. apply (Hw o args). left. }
  destruct (step rq st) as [st1 r]. simpl in H1.
  assert (Hw' : writes_succeed rqs).
  { intros o args Hin. apply (Hw o args). by right. }
  specialize (IH st1 Hw' H1). by destruct (run rqs st1).
Qed.

(** X8. As long as every write of the blacklist file succeeds, the file
    always holds exactly the blacklist in memory: a server restarted from
    the file comes up with the same blacklist, whatever the requests were. *)
Theorem blacklist_survives_restart :
  ∀ (file : BlacklistFile) (rqs : list Request),
    writes_succeed rqs →
    let st := (run rqs (initial_state file)).1 in
    load_blacklist (BLACKLIST_FILE st) = IMAGE_BLACKLIST st ∧
    IMAGE_BLACKLIST (initial_state (BLACKLIST_FILE st)) = IMAGE_BLACKLIST st ∧
    load_blacklist file ⊆ IMAGE_BLACKLIST (initial_state (BLACKLIST_FILE st)).
Proof.
  intros file rqs Hw st.
  assert (Hsync : file_in_sync st).
  { apply run_file_in_sync; [done|]. reflexivity. }
  split; [done|]. split; [done|].
  simpl. rewrite Hsync. apply (run_blacklist_mono rqs (initial_state file)).
Qed.

Lemma restart_witness :
  let w := artist_world (Some "http://img/x.png") None 600 in
  let rqs := [ArtistArt w ["X"]; BlacklistImg Written ["x|"]] in
  let st := (run rqs (initial_state (Some ["http://img/old.png"]))).1 in
  writes_succeed rqs ∧
  load_blacklist (BLACKLIST_FILE st) = IMAGE_BLACKLIST st ∧
  "http://img/x.png" ∈ IMAGE_BLACKLIST (initial_state (BLACKLIST_FILE st)).
Proof.
  intros w rqs st.
  assert (Hw : writes_succeed rqs).
  { intros o args Hin.
    apply elem_of_cons in Hin as [Hin|Hin]; [discriminate Hin|].
    apply list_elem_of_singleton in Hin. by injection Hin as -> _. }
  destruct (blacklist_survives_restart (Some ["http://img/old.png"]) rqs Hw)
    as (H1 & H2 & _).
  split; [exact Hw|]. split; [exact H1|].
  fold st in H2. rewrite H2. vm_compute. set_solver.
Defined.

(** ** Which providers a request consults *)

Lemma add_unseen_incl urls f u : u ∈ urls → u ∈ add_unseen urls f.
Proof.
  intros Hu. unfold add_unseen. destruct f as [v|]; [|done].
  destruct (_ && _); [|done]. apply elem_of_app. by left.
Qed.

Lemma add_unseen_new urls u :
  PyStr.nonempty u = true → u ∈ add_unseen urls (Some u).
Proof.
  intros Hu. unfold add_unseen. rewrite Hu. simpl.
  case_bool_decide as Hin; simpl; [done|].
  apply elem_of_app. right. by apply list_elem_of_singleton.
Qed.

Lemma foldl_add_unseen_incl fs :
  ∀ urls u, u ∈ urls → u ∈ foldl add_unseen urls fs.
Proof.
  induction fs as [|f fs IH]; intros urls u Hu; simpl; [done|].
  by apply IH, add_unseen_incl.
Qed.

Lemma add_track_covers_incl tracks :
  ∀ urls u, u ∈ urls → u ∈ add_track_covers urls tracks.
Proof.
  induction tracks as [|[a|] tracks IH]; intros urls u Hu; simpl; [done| |done].
  by apply IH, add_unseen_incl.
Qed.

Lemma audiodb_artist_urls_incl w artist urls u :
  u ∈ urls → u ∈ audiodb_artist_urls w artist urls.
Proof.
  intros Hu. unfold audiodb_artist_urls.
  destruct (audiodb_artist_search w artist) as [[|art ?]|]; try done.
  by apply foldl_add_unseen_incl.
Qed.

Lemma first_track_cover_collected w artist album urls a tracks u :
  is_soundtrack_search album || bool_decide (urls = []) = true →
  deezer_track_search w artist = Some (TrackAlbum a :: tracks) →
  py_or (cover_xl a) (cover_big a) = Some u →
  PyStr.nonempty u = true →
  u ∈ audiodb_artist_urls w artist (deezer_track_urls w artist album urls).
Proof.
  intros Hrun Htr Hcover Hu. apply audiodb_artist_urls_incl.
  unfold deezer_track_urls. rewrite Hrun, Htr. simpl. rewrite Hcover.
  by apply add_track_covers_incl, add_unseen_new.
Qed.

(** X9. With a soundtrack hint as album (['soundtrack'], ['ost'], ['game'],
    ['movie'] in any case) the candidates depend only on the Deezer artist
    search for the artist and for ["<artist> soundtrack"], the Deezer track
    search and TheAudioDB artist search: the two album-art providers are not
    consulted, nor are the [" ost"], [" game"] and [" movie"] variants of the
    search term.  The track search runs whatever was collected before: the
    cover of its first track is always among the candidates. *)
Theorem soundtrack_hint_path :
  ∀ (w : World) (artist album : string),
    is_soundtrack_search album = true →
    (∀ w' : World,
        deezer_artist_search w' artist = deezer_artist_search w artist →
        deezer_artist_search w' (artist +:+ " soundtrack")
          = deezer_artist_search w (artist +:+ " soundtrack") →
        deezer_track_search w' artist = deezer_track_search w artist →
        audiodb_artist_search w' artist = audiodb_artist_search w artist →
        collect_image_urls w' artist album = collect_image_urls w artist album) ∧
    (∀ (a : DeezerAlbum) (tracks : list DeezerTrack) (u : string),
        deezer_track_search w artist = Some (TrackAlbum a :: tracks) →
        py_or (cover_xl a) (cover_big a) = Some u →
        PyStr.nonempty u = true →
        u ∈ collect_image_urls w artist album).
Proof.
  intros w artist album Hhint.
  assert (Hphase : ∀ w0, album_phase w0 artist album = []).
  { intros w0. unfold album_phase. rewrite Hhint. by rewrite andb_false_r. }
  assert (Hterms : take 2 (search_terms artist album)
                   = [artist; artist +:+ " soundtrack"]).
  { unfold search_terms. by rewrite Hhint. }
  split.
  - intros w' H1 H2 H3 H4. unfold collect_image_urls.
    rewrite !Hphase, Hterms. simpl.
    unfold deezer_artist_urls, deezer_track_urls, audiodb_artist_urls.
    by rewrite H1, H2, H3, H4.
  - intros a tracks u Htr Hcover Hu. unfold collect_image_urls.
    apply (first_track_cover_collected w artist album _ a tracks u); try done.
    by rewrite Hhint.
Qed.

Lemma soundtrack_hint_witness :
  let w := same_cover_world "http://img/cover.jpg" in
  is_soundtrack_search "OST" = true ∧
  collect_image_urls w "X" "OST" = collect_image_urls offline "X" "OST".
Proof.
  intros w.
  assert (Hhint : is_soundtrack_search "OST" = true) by reflexivity.
  split; [exact Hhint|].
  destruct (soundtrack_hint_path offline "X" "OST" Hhint) as [Hsame _].
  apply (Hsame w); reflexivity.
Defined.

(** X10. Without a soundtrack hint the Deezer track search is a fallback
    only.  When the album-art phase or the artist search found a URL, its
    answer has no influence on the candidates; when they found nothing, the
    cover of its first track is among the candidates. *)
Theorem track_search_is_a_fallback :
  ∀ (w : World) (artist album : string),
    is_soundtrack_search album = false →
    (urls_before_track_search w artist album ≠ [] →
       ∀ tracks : string → option (list DeezerTrack),
         collect_image_urls (with_track_search w tracks) artist album
           = collect_image_urls w artist album) ∧
    (urls_before_track_search w artist album = [] →
       ∀ (a : DeezerAlbum) (tracks : list DeezerTrack) (u : string),
         deezer_track_search w artist = Some (TrackAlbum a :: tracks) →
         py_or (cover_xl a) (cover_big a) = Some u →
         PyStr.nonempty u = true →
         u ∈ collect_image_urls w artist album).
Proof.
  intros w artist album Hhint. split.
  - intros Hne tracks. unfold collect_image_urls.
    change (foldl (deezer_artist_urls (with_track_search w tracks))
              (album_phase (with_track_search w tracks) artist album)
              (take 2 (search_terms artist album)))
      with (urls_before_track_search w artist album).
    change (foldl (deezer_artist_urls w) (album_phase w artist album)
              (take 2 (search_terms artist album)))
      with (urls_before_track_search w artist album).
    unfold deezer_track_urls. rewrite Hhint. simpl.
    by rewrite bool_decide_eq_false_2.
  - intros Hnil a tracks u Htr Hcover Hu. unfold collect_image_urls.
    apply (first_track_cover_collected w artist album _ a tracks u); try done.
    fold (urls_before_track_search w artist album). rewrite Hnil, Hhint. done.
Qed.

Lemma track_fallback_witness :
  let w := same_cover_world "http://img/cover.jpg" in
  let tracks := λ _ : string,
    Some [TrackAlbum {| cover_xl := Some "http://img/track.jpg";
                        cover_big := None |}] in
  is_soundtrack_search "Y" = false ∧
  urls_before_track_search w "X" "Y" ≠ [] ∧
  collect_image_urls (with_track_search w tracks) "X" "Y"
    = ["http://img/cover.jpg"; "http://img/cover.jpg"] ∧
  collect_image_urls (with_track_search offline tracks) "X" "Y"
    = ["http://img/track.jpg"].
Proof.
  intros w tracks.
  assert (Hhint : is_soundtrack_search "Y" = false) by reflexivity.
  assert (Hne : urls_before_track_search w "X" "Y" ≠ []) by discriminate.
  destruct (track_search_is_a_fallback w "X" "Y" Hhint) as [Hskip _].
  split; [exact Hhint|]. split; [exact Hne|]. split.
  - rewrite (Hskip Hne tracks). vm_compute. reflexivity.
  - vm_compute. reflexivity.
Defined.

(** ** The rotation after a blacklisting *)




(** * Properties of the lyrics lookup *)

Lemma handle_lyrics_found lib file_path rest lyrics :
  find_lyrics lib file_path (default "" (rest !! 0)) (default "" (rest !! 1))
    = Some (Some lyrics) →
  PyStr.nonempty lyrics = true →
  handle_lyrics lib (file_path :: rest)
    = if utf8 lyrics then TextReply lyrics else TextUnsent.
Proof.
  intros Hf Hl. unfold handle_lyrics. rewrite Hf. simpl. by rewrite Hl.
Qed.

Lemma lyrics_text_nonempty lyrics : PyStr.nonempty (lyrics_text lyrics) = true.
Proof.
  unfold lyrics_text. destruct lyrics as [text|]; [|done].
  by destruct (PyStr.nonempty text) eqn:Ht.
Qed.

(** X12. A lyrics request with a file path never gets an error status.  The
    handler raises [OSError] before it sends anything exactly when
    [exists()] raises for the resolved path; otherwise it sends status 200,
    with a text that is not empty, or without a body when the text cannot
    be encoded.  Lyrics embedded in the file win: the two services then have
    no influence on the answer.  Without embedded lyrics the plain lyrics of
    lrclib.net win over whatever lyrics.ovh answers.  And when the artist
    or the title is missing or empty, the services are not consulted. *)
Theorem lyrics_sources_in_order :
  ∀ (lib : Library) (file_path : string) (rest : list string),
    let artist := default "" (rest !! 0) in
    let title := default "" (rest !! 1) in
    let sent := λ text, if utf8 text then TextReply text else TextUnsent in
    (handle_lyrics lib (file_path :: rest) = Crashed OSError ↔
       ∃ p, full_path_of lib file_path = Some p ∧ exists_fails lib p = true) ∧
    (handle_lyrics lib (file_path :: rest) = Crashed OSError ∨
     ∃ text, PyStr.nonempty text = true ∧
             handle_lyrics lib (file_path :: rest) = sent text) ∧
    (∀ p lyrics,
        full_path_of lib file_path = Some p →
        exists_fails lib p = false →
        path_exists lib p = true →
        embedded_lyrics lib file_path p = Some lyrics →
        PyStr.nonempty lyrics = true →
        ∀ l v, handle_lyrics (with_services lib l v) (file_path :: rest)
               = sent lyrics) ∧
    (∀ plain synced,
        (∀ p, full_path_of lib file_path = Some p →
              exists_fails lib p = false ∧
              (path_exists lib p = true →
               truthy (embedded_lyrics lib file_path p) = false)) →
        PyStr.nonempty artist = true →
        PyStr.nonempty title = true →
        lrclib lib artist title = Some (Some plain, synced) →
        PyStr.nonempty plain = true →
        ∀ v, handle_lyrics (with_services lib (lrclib lib) v) (file_path :: rest)
             = sent plain) ∧
    (PyStr.nonempty artist && PyStr.nonempty title = false →
       ∀ l v, handle_lyrics (with_services lib l v) (file_path :: rest)
              = handle_lyrics lib (file_path :: rest)).
Proof.
  intros lib file_path rest artist title sent. split_and!.
  - unfold handle_lyrics, find_lyrics. fold artist title.
    destruct (full_path_of lib file_path) as [p|].
    + destruct (exists_fails lib p) eqn:Hfail.
      * split; [by eauto|done].
      * split.
        -- by destruct (utf8 _).
        -- intros (p0 & [= <-] & Hp0). congruence.
    + split; [by destruct (utf8 _)|]. by intros (p0 & Hp0 & _).
  - unfold handle_lyrics. fold artist title.
    destruct (find_lyrics lib file_path artist title) as [lyrics|]; [|by left].
    right. exists (lyrics_text lyrics).
    split; [apply lyrics_text_nonempty|done].
  - intros p lyrics Hp Hfail Hex Hemb Hl l v.
    rewrite (handle_lyrics_found _ _ _ lyrics); [done| |done].
    unfold find_lyrics.
    change (full_path_of (with_services lib l v) file_path)
      with (full_path_of lib file_path).
    rewrite Hp. simpl. rewrite Hfail, Hex.
    change (embedded_lyrics (with_services lib l v) file_path p)
      with (embedded_lyrics lib file_path p).
    rewrite Hemb. unfold after_web. simpl. by rewrite Hl.
  - intros plain synced Hnone Ha Ht Hl Hplain v.
    rewrite (handle_lyrics_found _ _ _ plain); [done| |done].
    fold artist title. unfold find_lyrics.
    change (full_path_of (with_services lib (lrclib lib) v) file_path)
      with (full_path_of lib file_path).
    assert (Hor : py_or (Some plain) synced = Some plain).
    { unfold py_or. simpl. by rewrite Hplain. }
    assert (Hweb : ∀ lyrics, truthy lyrics = false →
      after_web (with_services lib (lrclib lib) v) artist title lyrics
        = Some plain).
    { intros lyrics Hfalsy. unfold after_web. rewrite Hfalsy, Ha, Ht. simpl.
      unfold web_lyrics. simpl. rewrite Hl, Hor. simpl. by rewrite Hplain. }
    destruct (full_path_of lib file_path) as [p|] eqn:Hp.
    + destruct (Hnone p eq_refl) as [Hfail Hemb]. simpl. rewrite Hfail.
      f_equal. apply Hweb.
      change (embedded_lyrics (with_services lib (lrclib lib) v) file_path p)
        with (embedded_lyrics lib file_path p).
      destruct (path_exists lib p); [by apply Hemb|done].
    + f_equal. by apply Hweb.
  - intros Hmissing l v. unfold handle_lyrics. fold artist title.
    assert (Hweb : ∀ lyrics,
      after_web (with_services lib l v) artist title lyrics
        = after_web lib artist title lyrics).
    { intros lyrics. unfold after_web.
      by rewrite <- !andb_assoc, Hmissing, !andb_false_r. }
    unfold find_lyrics.
    change (full_path_of (with_services lib l v) file_path)
      with (full_path_of lib file_path).
    destruct (full_path_of lib file_path) as [p|]; simpl; [|by rewrite Hweb].
    change (embedded_lyrics (with_services lib l v) file_path p)
      with (embedded_lyrics lib file_path p).
    by rewrite Hweb.
Qed.

Lemma lyrics_sources_witness :
  let lib := with_readers (bare_library "/home/u/Music")
               (λ _, Some [""; "la la"]) (λ _, None) (λ _, None) in
  let p := "/home/u/Music/a/song.MP3" in
  full_path_of lib "a/song.MP3" = Some p ∧
  exists_fails lib p = false ∧
  path_exists lib p = true ∧
  embedded_lyrics lib "a/song.MP3" p = Some "la la" ∧
  PyStr.nonempty "la la" = true ∧
  handle_lyrics
    (with_services lib (λ _ _, Some (Some "from the web", None)) (λ _ _, None))
    ["a/song.MP3"; "Artist"; "Title"]
  = TextReply "la la".
Proof.
  intros lib p.
  assert (H1 : full_path_of lib "a/song.MP3" = Some p) by reflexivity.
  assert (H0 : exists_fails lib p = false) by reflexivity.
  assert (H2 : path_exists lib p = true) by reflexivity.
  assert (H3 : embedded_lyrics lib "a/song.MP3" p = Some "la la") by reflexivity.
  assert (H4 : PyStr.nonempty "la la" = true) by reflexivity.
  destruct (lyrics_sources_in_order lib "a/song.MP3" ["Artist"; "Title"])
    as (_ & _ & Hemb & _).
  split; [exact H1|]. split; [exact H0|]. split; [exact H2|].
  split; [exact H3|]. split; [exact H4|].
  exact (Hemb p "la la" H1 H0 H2 H3 H4 _ _).
Defined.

(** X13. The tag readers are given a path only if it resolved, the resolved
    path starts with the text of [MUSIC_DIR] and the file exists; the answer
    depends on the readers at that one path only.  The test is a comparison
    of texts: every resolved path that continues the text of [MUSIC_DIR] is
    accepted, whatever character comes next. *)
Theorem tags_are_read_below_the_music_dir_prefix :
  ∀ (lib : Library) (file_path : string) (rest : list string),
    let resolved :=
      if is_absolute file_path then resolve_absolute lib file_path
      else resolve_relative lib file_path in
    (∀ p, full_path_of lib file_path = Some p ↔
          resolved = Some p ∧ ∃ s, p = MUSIC_DIR lib +:+ s) ∧
    (∀ i f m,
        (∀ p, full_path_of lib file_path = Some p → path_exists lib p = true →
              i p = id3_uslt lib p ∧ f p = flac_tags lib p ∧ m p = mp4_lyr lib p) →
        handle_lyrics (with_readers lib i f m) (file_path :: rest)
          = handle_lyrics lib (file_path :: rest)).
Proof.
  intros lib file_path rest resolved. split.
  - intros p. unfold full_path_of. fold resolved.
    destruct resolved as [p0|]; [|by split; [|intros [? _]]].
    destruct (PyStr.is_prefix (MUSIC_DIR lib) p0) eqn:Hpre.
    + apply is_prefix_spec in Hpre. split.
      * intros [= <-]. done.
      * by intros [[= <-] _].
    + split; [done|]. intros [[= <-] Hs].
      apply is_prefix_spec in Hs. congruence.
  - intros i f m Hagree. unfold handle_lyrics, find_lyrics.
    change (full_path_of (with_readers lib i f m) file_path)
      with (full_path_of lib file_path).
    destruct (full_path_of lib file_path) as [p|] eqn:Hp; [|done].
    change (exists_fails (with_readers lib i f m) p) with (exists_fails lib p).
    destruct (exists_fails lib p); [done|].
    change (path_exists (with_readers lib i f m) p) with (path_exists lib p).
    destruct (path_exists lib p) eqn:Hex; [|done].
    destruct (Hagree p eq_refl Hex) as (Hi & Hf & Hm).
    assert (Hemb : embedded_lyrics (with_readers lib i f m) file_path p
                   = embedded_lyrics lib file_path p).
    { unfold embedded_lyrics. simpl. by rewrite Hi, Hf, Hm. }
    by rewrite Hemb.
Qed.

Lemma music_dir_prefix_witness :
  let lib := with_readers (bare_library "/home/u/Music")
               (λ _, Some ["secret"]) (λ _, None) (λ _, None) in
  full_path_of lib "/home/u/Music2/x.mp3" = Some "/home/u/Music2/x.mp3" ∧
  handle_lyrics lib ["/home/u/Music2/x.mp3"] = TextReply "secret" ∧
  full_path_of lib "/etc/x.mp3" = None ∧
  handle_lyrics lib ["/etc/x.mp3"] = TextReply "No lyrics found".
Proof.
  intros lib.
  destruct (tags_are_read_below_the_music_dir_prefix lib "/home/u/Music2/x.mp3" [])
    as [Hiff _].
  split; [|split; [reflexivity|split; reflexivity]].
  apply Hiff. split; [reflexivity|]. by exists "2/x.mp3".
Defined.

Lemma ends_with_unfold suffix s :
  ends_with suffix s =
    String.eqb s suffix ||
    match s with
    | EmptyString => false
    | String _ t => ends_with suffix t
    end.
Proof. by destruct s. Qed.

(** [ends_with] is Python's [str.endswith]. *)
Lemma ends_with_spec suffix :
  ∀ s, ends_with suffix s = true ↔ ∃ a, s = a +:+ suffix.
Proof.
  induction s as [|c s IH]; rewrite ends_with_unfold.
  - rewrite orb_false_r, String.eqb_eq. split.
    + intros <-. by exists EmptyString.
    + intros [a Ha]. destruct a as [|c a]; [done|].
      by rewrite append_String in Ha.
  - rewrite orb_true_iff, String.eqb_eq, IH. split.
    + intros [<-|[a ->]]; [by exists EmptyString|].
      exists (String c a). by rewrite append_String.
    + intros [a Ha]. destruct a as [|c' a].
      * left. by rewrite append_empty in Ha.
      * right. exists a. rewrite append_String in Ha. congruence.
Qed.

(** * Properties of the router *)

Lemma latin1_append s t : latin1 (s +:+ t) = latin1 s && latin1 t.
Proof.
  induction s as [|c s IH]; [done|].
  rewrite append_String. simpl. by rewrite IH, andb_assoc.
Qed.

Lemma first_value_cmd q :
  first_value q "cmd" (Some "") = None ∨
  ∃ c, first_value q "cmd" (Some "") = Some (Some c).
Proof.
  unfold first_value. destruct (q !! "cmd") as [[|v vs]|]; eauto.
Qed.

(** [do_GET] once the command and the format are read. *)
Lemma do_GET_read h lib w o rq st cmd fmt :
  first_value (query rq) "cmd" (Some "") = Some (Some cmd) →
  first_value (query rq) "format" None = Some fmt →
  do_GET h lib w o rq st =
    let binary := bool_decide (is_Some (query rq !! "binary")) in
    let args := default [] (query rq !! "args") in
    if bool_decide (url_path rq ∈ ["/"; "/mpd-spiffy.html"])
       && negb (PyStr.nonempty cmd)
    then (st, {| reply := match html_page h with
                          | Some page => HtmlPage page
                          | None => HtmlUnreadable
                          end;
                 spawned := [] |})
    else if decide (cmd = "lyrics")
    then (st, {| reply := handle_lyrics lib args; spawned := [] |})
    else if decide (cmd = "artistart")
    then let '(st', r) := handle_artistart w args st in
         (st', {| reply := CacheReply r; spawned := [] |})
    else if decide (cmd = "blacklistimg")
    then let '(st', r) := handle_blacklist o args st in
         (st', {| reply := CacheReply r; spawned := [] |})
    else if decide (cmd = "list")
    then (st, handle_list h args)
    else if negb (PyStr.nonempty cmd)
    then (st, {| reply := send_error 400 "Missing cmd parameter";
                 spawned := [] |})
    else if negb (bool_decide (cmd ∈ ALLOWED_COMMANDS))
    then (st, {| reply := send_error 403 ("Command not allowed: " +:+ cmd);
                 spawned := [] |})
    else (st, run_mpc h fmt binary cmd args).
Proof. intros Hc Hf. unfold do_GET. by rewrite Hc, Hf. Qed.

(** X14. Whatever the request, the server starts at most one process, and
    only [mpc]: either [mpc list <args>] for the command [list] with at
    least one argument, or [mpc [-f <format>] <cmd> <args>] for a command of
    [ALLOWED_COMMANDS].  A command that is neither in [ALLOWED_COMMANDS] nor
    one of [lyrics], [artistart], [blacklistimg], [list] is refused: no
    process is started and the state is left as it was; the answer is status
    403 with the command in the message, unless that message cannot be
    encoded as Latin-1, in which case [send_error] raises and nothing is
    sent. *)
Theorem only_whitelisted_commands_reach_mpc :
  ∀ (h : Host) (lib : Library) (w : World) (o : WriteOutcome)
    (rq : GetRequest) (st : State),
    let out := do_GET h lib w o rq st in
    let args := default [] (query rq !! "args") in
    (∀ argv, argv ∈ spawned out.2 →
       spawned out.2 = [argv] ∧
       ∃ cmd, first_value (query rq) "cmd" (Some "") = Some (Some cmd) ∧
         ((cmd = "list" ∧ args ≠ [] ∧ argv = ("mpc" :: "list" :: args)%list) ∨
          (cmd ∈ ALLOWED_COMMANDS ∧
           (argv = ("mpc" :: cmd :: args)%list ∨
            ∃ f, first_value (query rq) "format" None = Some (Some f) ∧
                 f ≠ "" ∧ argv = ("mpc" :: "-f" :: f :: cmd :: args)%list)))) ∧
    (∀ cmd, first_value (query rq) "cmd" (Some "") = Some (Some cmd) →
       first_value (query rq) "format" None ≠ None →
       cmd ∉ ALLOWED_COMMANDS →
       cmd ∉ ["lyrics"; "artistart"; "blacklistimg"; "list"] →
       cmd ≠ "" →
       out.1 = st ∧
       spawned out.2 = [] ∧
       (latin1 cmd = true →
          reply out.2 = ErrorReply 403 ("Command not allowed: " +:+ cmd)) ∧
       (latin1 cmd = false → reply out.2 = Crashed UnicodeEncodeError)).
Proof.
  intros h lib w o rq st out args. split.
  - intros argv Hin.
    destruct (first_value_cmd (query rq)) as [Hc|[cmd Hc]].
    { unfold out, do_GET in Hin. rewrite Hc in Hin. simpl in Hin.
      by apply not_elem_of_nil in Hin. }
    destruct (first_value (query rq) "format" None) as [fmt|] eqn:Hf.
    2:{ unfold out, do_GET in Hin. rewrite Hc, Hf in Hin. simpl in Hin.
        by apply not_elem_of_nil in Hin. }
    unfold out in *. rewrite (do_GET_read h lib w o rq st cmd fmt Hc Hf) in *.
    cbv zeta in *. fold args in Hin |- *.
    destruct (_ && _); [by apply not_elem_of_nil in Hin|].
    destruct (decide (cmd = "lyrics")); [by apply not_elem_of_nil in Hin|].
    destruct (decide (cmd = "artistart")).
    { destruct (handle_artistart w args st). by apply not_elem_of_nil in Hin. }
    destruct (decide (cmd = "blacklistimg")).
    { destruct (handle_blacklist o args st). by apply not_elem_of_nil in Hin. }
    destruct (decide (cmd = "list")) as [->|Hlist].
    { unfold handle_list in *. destruct args as [|what rest] eqn:Hargs;
        [by apply not_elem_of_nil in Hin|].
      simpl in *. apply list_elem_of_singleton in Hin as ->.
      split; [done|]. exists "list". split; [done|]. left. done. }
    destruct (PyStr.nonempty cmd) eqn:Hne; simpl in Hin;
      [|by apply not_elem_of_nil in Hin].
    case_bool_decide as Hallowed; simpl in Hin;
      [|by apply not_elem_of_nil in Hin].
    apply list_elem_of_singleton in Hin as ->. simpl.
    split; [done|]. exists cmd. split; [done|]. right. split; [done|].
    destruct fmt as [f|]; [|by left].
    destruct (PyStr.nonempty f) eqn:Hfne; [|by left].
    right. exists f. split; [done|]. split; [|done]. by intros ->.
  - intros cmd Hc Hf Hnot Hspecial Hne.
    destruct (first_value (query rq) "format" None) as [fmt|] eqn:Hfmt; [|done].
    unfold out. rewrite (do_GET_read h lib w o rq st cmd fmt Hc Hfmt).
    cbv zeta.
    assert (Hcmd : PyStr.nonempty cmd = true) by (by destruct cmd).
    rewrite Hcmd, andb_false_r. simpl.
    destruct (decide (cmd = "lyrics")) as [->|_]; [set_solver|].
    destruct (decide (cmd = "artistart")) as [->|_]; [set_solver|].
    destruct (decide (cmd = "blacklistimg")) as [->|_]; [set_solver|].
    destruct (decide (cmd = "list")) as [->|_]; [set_solver|].
    rewrite bool_decide_eq_false_2 by done. simpl.
    split; [done|]. split; [done|].
    unfold send_error. rewrite latin1_append. simpl.
    split; by intros ->.
Qed.

Lemma whitelist_witness :
  let st := initial_state None in
  let rq := get_request "/" "rm" ["-rf"; "/"] in
  let ok := get_request "/" "volume" ["+5"] in
  first_value (query rq) "cmd" (Some "") = Some (Some "rm") ∧
  latin1 "rm" = true ∧
  do_GET echo_host (bare_library "/m") offline Written rq st
    = (st, {| reply := ErrorReply 403 "Command not allowed: rm"; spawned := [] |}) ∧
  reply (do_GET echo_host (bare_library "/m") offline Written
           (get_request "/" "ā" []) st).2 = Crashed UnicodeEncodeError ∧
  spawned (do_GET echo_host (bare_library "/m") offline Written ok st).2
    = [["mpc"; "volume"; "+5"]].
Proof.
  intros st rq ok.
  assert (Hc : first_value (query rq) "cmd" (Some "") = Some (Some "rm"))
    by reflexivity.
  assert (Hl : latin1 "rm" = true) by reflexivity.
  destruct (only_whitelisted_commands_reach_mpc echo_host (bare_library "/m")
              offline Written rq st) as [_ Hrefuse].
  destruct (Hrefuse "rm" Hc) as (Hst & Hsp & Hrep & _).
  - discriminate.
  - apply (proj1 (bool_decide_eq_false _)). vm_compute. reflexivity.
  - apply (proj1 (bool_decide_eq_false _)). vm_compute. reflexivity.
  - discriminate.
  - split; [exact Hc|]. split; [exact Hl|].
    split; [|split; vm_compute; reflexivity].
    specialize (Hrep Hl).
    destruct (do_GET echo_host (bare_library "/m") offline Written rq st)
      as [st' [rep sp]].
    simpl in Hst, Hsp, Hrep. rewrite Hst, Hsp, Hrep. reflexivity.
Defined.

(** What a request does to the cache: nothing, or what the cache handler of
    its command does. *)
Lemma do_GET_cases h lib w o rq st :
  let out := do_GET h lib w o rq st in
  let args := default [] (query rq !! "args") in
  (out.1 = st ∧ ∀ r, reply out.2 ≠ CacheReply r) ∨
  (first_value (query rq) "cmd" (Some "") = Some (Some "artistart") ∧
   out = ((handle_artistart w args st).1,
          {| reply := CacheReply (handle_artistart w args st).2;
             spawned := [] |})) ∨
  (first_value (query rq) "cmd" (Some "") = Some (Some "blacklistimg") ∧
   out = ((handle_blacklist o args st).1,
          {| reply := CacheReply (handle_blacklist o args st).2;
             spawned := [] |})).
Proof.
  intros out args.
  destruct (first_value_cmd (query rq)) as [Hc|[cmd Hc]].
  { left. unfold out, do_GET. by rewrite Hc. }
  destruct (first_value (query rq) "format" None) as [fmt|] eqn:Hf.
  2:{ left. unfold out, do_GET. by rewrite Hc, Hf. }
  unfold out. rewrite (do_GET_read h lib w o rq st cmd fmt Hc Hf).
  cbv zeta. fold args.
  destruct (_ && _).
  { left. simpl. split; [done|]. intros r. by destruct (html_page h). }
  destruct (decide (cmd = "lyrics")).
  { left. simpl. split; [done|]. intros r. unfold handle_lyrics.
    destruct args; [done|]. destruct (find_lyrics _ _ _ _) as [l|]; [|done].
    by destruct (utf8 _). }
  destruct (decide (cmd = "artistart")) as [->|].
  { right. left. split; [done|]. by destruct (handle_artistart w args st). }
  destruct (decide (cmd = "blacklistimg")) as [->|].
  { right. right. split; [done|]. by destruct (handle_blacklist o args st). }
  left.
  destruct (decide (cmd = "list")).
  { simpl. split; [done|]. intros r. unfold handle_list.
    destruct args; [done|]. simpl.
    destruct (mpc_text h _); simpl; unfold send_error; try done;
      by destruct (latin1 _). }
  destruct (negb (PyStr.nonempty cmd)); [done|].
  destruct (negb (bool_decide (cmd ∈ ALLOWED_COMMANDS))).
  { simpl. split; [done|]. intros r. unfold send_error.
    by destruct (latin1 _). }
  simpl. split; [done|]. intros r.
  destruct (bool_decide _).
  - destruct (mpc_bytes h _); simpl; unfold send_error; try done;
      by destruct (latin1 _).
  - destruct (mpc_text h _); simpl; unfold send_error; try done;
      by destruct (latin1 _).
Qed.

(** X15. Behind the router the cache stays in its reachable states, so every
    invariant of the cache holds while the server runs; in particular an
    answer of the cache handlers is never a failed lookup ([KeyError] or
    [IndexError]).  Only the commands
    [artistart] and [blacklistimg] change the state: the page, the lyrics
    lookup and the player proxy leave blacklist, sets, cursors and last
    served URLs alone. *)
Theorem router_keeps_the_cache_reachable :
  ∀ (h : Host) (lib : Library) (w : World) (o : WriteOutcome)
    (rq : GetRequest) (st : State),
    let out := do_GET h lib w o rq st in
    (reachable st → reachable out.1) ∧
    (reachable st → ∀ r, reply out.2 = CacheReply r →
       r ≠ Raised KeyError ∧ r ≠ Raised IndexError) ∧
    (out.1 ≠ st →
       first_value (query rq) "cmd" (Some "") = Some (Some "artistart") ∨
       first_value (query rq) "cmd" (Some "") = Some (Some "blacklistimg")).
Proof.
  intros h lib w o rq st out.
  unfold out.
  destruct (do_GET_cases h lib w o rq st) as [[Hst Hr]|[[Hc Ho]|[Hc Ho]]].
  - split_and!.
    + by rewrite Hst.
    + intros _ r Hrep. by destruct (Hr r).
    + done.
  - rewrite Ho. split_and!.
    + intros Hreach. exact (reachable_step (ArtistArt w _) st Hreach).
    + intros Hreach r [= <-].
      exact (reachable_step_lookups_succeed st (ArtistArt w _) Hreach).
    + by left.
  - rewrite Ho. split_and!.
    + intros Hreach. exact (reachable_step (BlacklistImg o _) st Hreach).
    + intros Hreach r [= <-].
      exact (reachable_step_lookups_succeed st (BlacklistImg o _) Hreach).
    + by right.
Qed.

Lemma router_witness :
  let w := artist_world (Some "http://img/x.png") None 600 in
  let st := initial_state None in
  let out := do_GET echo_host (bare_library "/m") w Written
               (get_request "/" "artistart" ["X"]) st in
  reachable st ∧ reachable out.1 ∧ out.1 ≠ st ∧
  position_of <$> (match reply out.2 with CacheReply r => Some r | _ => None end)
    = Some (Some (1, 1)).
Proof.
  intros w st out.
  assert (Hst : reachable st) by apply reachable_init.
  destruct (router_keeps_the_cache_reachable echo_host (bare_library "/m") w
              Written (get_request "/" "artistart" ["X"]) st) as (Hreach & _ & _).
  split; [exact Hst|]. split; [exact (Hreach Hst)|]. split.
  - intros Heq. apply (f_equal (λ s, image_index s !! "x|")) in Heq.
    vm_compute in Heq. discriminate Heq.
  - vm_compute. reflexivity.
Defined.

(** X16. The path of the URL matters only when no command is given: with a
    non-empty [cmd] the answer is the same for every path.  Without a
    command the page is sent for the paths [/] and [/mpd-spiffy.html] and
    every other path gets status 400; neither touches the state or starts a
    process. *)
Theorem path_matters_only_without_command :
  ∀ (h : Host) (lib : Library) (w : World) (o : WriteOutcome)
    (rq : GetRequest) (st : State),
    (∀ cmd path,
        first_value (query rq) "cmd" (Some "") = Some (Some cmd) →
        cmd ≠ "" →
        do_GET h lib w o {| url_path := path; query := query rq |} st
          = do_GET h lib w o rq st) ∧
    (first_value (query rq) "cmd" (Some "") = Some (Some "") →
     first_value (query rq) "format" None ≠ None →
     do_GET h lib w o rq st =
       (st, {| reply :=
                 if bool_decide (url_path rq ∈ ["/"; "/mpd-spiffy.html"])
                 then match html_page h with
                      | Some page => HtmlPage page
                      | None => HtmlUnreadable
                      end
                 else ErrorReply 400 "Missing cmd parameter";
               spawned := [] |})).
Proof.
  intros h lib w o rq st. split.
  - intros cmd path Hc Hne.
    assert (Hcmd : PyStr.nonempty cmd = true) by (by destruct cmd).
    destruct (first_value (query rq) "format" None) as [fmt|] eqn:Hf.
    + rewrite (do_GET_read h lib w o rq st cmd fmt Hc Hf).
      rewrite (do_GET_read h lib w o {| url_path := path; query := query rq |}
                 st cmd fmt Hc Hf).
      cbv zeta. simpl. by rewrite Hcmd, !andb_false_r.
    + unfold do_GET. simpl. by rewrite Hc, Hf.
  - intros Hc Hf.
    destruct (first_value (query rq) "format" None) as [fmt|] eqn:Hfmt; [|done].
    rewrite (do_GET_read h lib w o rq st "" fmt Hc Hfmt). cbv zeta. simpl.
    rewrite andb_true_r. by destruct (bool_decide _).
Qed.

Lemma path_witness :
  let st := initial_state None in
  let run_at := λ path,
    do_GET echo_host (bare_library "/m") offline Written
      (get_request path "status" []) st in
  first_value (query (get_request "/x" "status" [])) "cmd" (Some "")
    = Some (Some "status") ∧
  "status" ≠ "" ∧
  run_at "/anything" = run_at "/x" ∧
  reply (run_at "/x").2 = TextReply "mpc status".
Proof.
  intros st run_at.
  assert (Hc : first_value (query (get_request "/x" "status" [])) "cmd" (Some "")
               = Some (Some "status")) by reflexivity.
  assert (Hne : "status" ≠ "") by discriminate.
  destruct (path_matters_only_without_command echo_host (bare_library "/m")
              offline Written (get_request "/x" "status" []) st) as [Hpath _].
  split; [exact Hc|]. split; [exact Hne|]. split.
  - exact (Hpath "status" "/anything" Hc Hne).
  - vm_compute. reflexivity.
Defined.

(** * The fetch is memoised *)

(** X17. Once a set is cached for a key, calls for that key consult neither
    a provider nor the network: whatever the world answers, a sequence of
    such calls produces the same answers and the same state. *)
Theorem cache_hits_ignore_the_world :
  ∀ (a0 : string) (rest : list string) (images : list ImageRecord)
    (ws ws' : list World) (st : State),
    image_cache st !! cache_key_of (artist_of a0) (album_of rest) = Some images →
    length ws = length ws' →
    run (artistart_calls ws (a0 :: rest)) st
      = run (artistart_calls ws' (a0 :: rest)) st.
Proof.
  intros a0 rest images ws. induction ws as [|w ws IH];
    intros [|w' ws'] st Hk Hlen; try done.
  cbn [artistart_calls fmap list_fmap run step].
  rewrite !(handle_artistart_hit _ _ _ _ images Hk).
  destruct (serve _ st) as [st1 r] eqn:Hs.
  assert (Hk1 : image_cache st1 !! cache_key_of (artist_of a0) (album_of rest)
                = Some images).
  { replace st1 with (serve (cache_key_of (artist_of a0) (album_of rest)) st).1
      by (by rewrite Hs).
    by rewrite serve_cache. }
  injection Hlen as Hlen.
  change ((λ w0, ArtistArt w0 (a0 :: rest)) <$> ws)
    with (artistart_calls ws (a0 :: rest)).
  change ((λ w0, ArtistArt w0 (a0 :: rest)) <$> ws')
    with (artistart_calls ws' (a0 :: rest)).
  by rewrite (IH ws' st1 Hk1 Hlen).
Qed.

Lemma cache_hits_witness :
  let w := artist_world (Some "http://img/x.png") (Some "http://img/fan.png") 600 in
  let st := (handle_artistart w ["X"] (initial_state None)).1 in
  let r := λ u, {| img_data := body_of_size 600; content_type := "image/png";
                   img_url := u |} in
  image_cache st !! cache_key_of (artist_of "X") (album_of [])
    = Some [r "http://img/x.png"; r "http://img/fan.png"] ∧
  length [offline; offline] = length [w; same_cover_world "http://img/c.jpg"] ∧
  run (artistart_calls [offline; offline] ["X"]) st
    = run (artistart_calls [w; same_cover_world "http://img/c.jpg"] ["X"]) st.
Proof.
  intros w st r.
  assert (Hk : image_cache st !! cache_key_of (artist_of "X") (album_of [])
               = Some [r "http://img/x.png"; r "http://img/fan.png"])
    by (vm_compute; reflexivity).
  assert (Hlen : length [offline; offline]
                 = length [w; same_cover_world "http://img/c.jpg"])
    by reflexivity.
  split; [exact Hk|]. split; [exact Hlen|].
  exact (cache_hits_ignore_the_world "X" [] _ _ _ st Hk Hlen).
Defined.
